(** * The recursive variable fetcher of the default debug session

    A shallow embedding of [defaultFetchVariablesStrategy]
    (packages/webview-ui/src/features/sessions/debugSessions/default/
    strategies/defaultFetchVariablesStrategy.ts) and the properties its
    specification states about it.

    The function is asynchronous and effectful: it reads the Redux store,
    awaits one "variables" request per reference, dispatches [addVariables]
    and calls itself.  It is modelled in a small monad over a [World] that
    holds the store, the state of the debug adapter and the sequence of
    side effects performed so far. *)

From Stdlib Require Import ZArith List String Bool Lia.
Import ListNotations.
Local Open Scope Z_scope.

(** ** Data of the debug adapter protocol *)

(** [DP.VariablePresentationHint]; only [lazy] is read by the fetcher. *)
Record VariablePresentationHint := mkHint {
  lazy : option bool
}.

(** [DP.Variable]; [name], [value], [variablesReference] and the optional
    [presentationHint] (the other optional fields are never read). *)
Record DPVariable := mkVar {
  name : string;
  value : string;
  variablesReference : Z;
  presentationHint : option VariablePresentationHint
}.

(** [DP.VariablesArguments], built as [{ variablesReference: ref }]. *)
Record VariablesArguments := mkArgs {
  argsReference : Z
}.

(** Redux Toolkit's [EntityId = number | string], the element type of
    [session.variables.ids]. *)
Inductive EntityId :=
| IdNum (n : Z)
| IdStr (s : string).

Definition EntityId_eqb (a b : EntityId) : bool :=
  match a, b with
  | IdNum n, IdNum m => n =? m
  | IdStr s, IdStr t => String.eqb s t
  | _, _ => false
  end.

(** JavaScript truthiness of an optional boolean ([undefined] is falsy). *)
Definition truthy (b : option bool) : bool :=
  match b with
  | Some true => true
  | _ => false
  end.

(** [$var.presentationHint?.lazy] *)
Definition hintLazy (v : DPVariable) : option bool :=
  match presentationHint v with
  | Some h => lazy h
  | None => None
  end.

(** [refsFetched.includes(r)] *)
Definition includesRef (refsFetched : list Z) (r : Z) : bool :=
  existsb (Z.eqb r) refsFetched.

(** [session.variables.ids.includes($var.value)]: the searched value is a
    string, so only string ids can match. *)
Definition includesId (ids : list EntityId) (v : string) : bool :=
  existsb (EntityId_eqb (IdStr v)) ids.

(** ** Collaborators that live outside the strategy file

    The entity types, [toVariablesEntity], the selectors of the session
    slice, the [addVariables] reducer and [debugApi.debugRequestAsync] are
    imported by the strategy.  They are the fields of [Host]; every theorem
    below holds for all of them.  The selectors, the conversion and the
    reducer are taken to return always; only the request can fail. *)
Class Host := {
  StackFrameEntity : Type;
  ScopeEntity : Type;
  VariablesEntity : Type;
  EntityState : Type;
  SessionState : Type;
  RootState : Type;
  AdapterState : Type;
  (** [varEntity.variables] *)
  entityVariables : VariablesEntity -> list DPVariable;
  (** [toVariablesEntity(args, resp.body.variables)] *)
  toVariablesEntity : VariablesArguments -> list DPVariable -> VariablesEntity;
  (** [selectSessionState(api.getState(), sessionId)] *)
  selectSessionState : RootState -> string -> SessionState;
  (** [session.variables] *)
  variables : SessionState -> EntityState;
  (** [variableSelectors.selectReferences(session.variables)]; the array it
      returns is local to the call that asked for it. *)
  selectReferences : EntityState -> list Z;
  (** [session.variables.ids] *)
  ids : EntityState -> list EntityId;
  (** the store after [api.dispatch(addVariables(sessionId, { variables }))] *)
  addVariables : string -> list VariablesEntity -> RootState -> RootState;
  (** one "variables" round trip: [None] is a rejected request *)
  debugRequestAsync :
    string -> VariablesArguments -> AdapterState ->
    option (list DPVariable) * AdapterState
}.

Section Fetcher.
Context {H : Host}.

Record FetchVariablesContextArg := mkCtx {
  sessionId : string;
  frame : StackFrameEntity;
  refsToFetch : list Z;
  variable : option VariablesEntity;
  scope : option ScopeEntity;
  force : option bool
}.

(** ** Side effects *)

Inductive Event :=
| EvRequest (sid : string) (args : VariablesArguments)
            (resp : option (list DPVariable))
| EvDispatch (sid : string) (published : list VariablesEntity)
| EvRecurse (childContextArgs : FetchVariablesContextArg)
            (maxDepth currentDepth : Z).

Record World := mkWorld {
  store : RootState;
  adapter : AdapterState;
  trace : list Event
}.

Definition emit (e : Event) (w : World) : World :=
  mkWorld (store w) (adapter w) (trace w ++ [e]).

(** ** The monad of asynchronous computations

    [Fulfilled] and [Rejected] are the two ways a promise settles;
    [OutOfFuel] only marks a run of [fetchFuel] cut short by its fuel. *)
Inductive Res (A : Type) :=
| Fulfilled (a : A) (w : World)
| Rejected (w : World)
| OutOfFuel.
Arguments Fulfilled {A} a w.
Arguments Rejected {A} w.
Arguments OutOfFuel {A}.

Definition Async (A : Type) := World -> Res A.

Definition ret {A} (a : A) : Async A := fun w => Fulfilled a w.

Definition bind {A B} (m : Async A) (k : A -> Async B) : Async B :=
  fun w =>
    match m w with
    | Fulfilled a w' => k a w'
    | Rejected w' => Rejected w'
    | OutOfFuel => OutOfFuel
    end.

Notation "x <- m ;; k" := (bind m (fun x => k))
  (at level 61, m at next level, right associativity).
Notation "m ;;; k" := (bind m (fun _ => k))
  (at level 61, right associativity).

(** [api.getState()] *)
Definition getState : Async RootState := fun w => Fulfilled (store w) w.

(** [await debugApi.debugRequestAsync(sid, { command: "variables", args })] *)
Definition request (sid : string) (args : VariablesArguments)
  : Async (list DPVariable) :=
  fun w =>
    let (resp, a') := debugRequestAsync sid args (adapter w) in
    let w' := mkWorld (store w) a' (trace w ++ [EvRequest sid args resp]) in
    match resp with
    | Some body => Fulfilled body w'
    | None => Rejected w'
    end.

(** [api.dispatch(addVariables(sid, { variables: vs }))] *)
Definition dispatch (sid : string) (vs : list VariablesEntity) : Async unit :=
  fun w =>
    Fulfilled tt
      (mkWorld (addVariables sid vs (store w)) (adapter w)
               (trace w ++ [EvDispatch sid vs])).

(** the marker left in the trace when the function calls itself *)
Definition enter (c : FetchVariablesContextArg) (maxDepth currentDepth : Z)
  : Async unit :=
  fun w => Fulfilled tt (emit (EvRecurse c maxDepth currentDepth) w).

(** ** The strategy *)

(** The predicate of the [filter] at lines 80-84. *)
Definition eligible (ctx : FetchVariablesContextArg) (refsFetched : list Z)
           (sessionIds : list EntityId) (v : DPVariable) : bool :=
  (variablesReference v >? 0)
  && negb (includesRef refsFetched (variablesReference v))
  && (truthy (force ctx) || negb (truthy (hintLazy v)))
  && negb (includesId sessionIds (value v)).

(** [childRefsToFetch], lines 80-85. *)
Definition childRefsToFetch (ctx : FetchVariablesContextArg)
           (refsFetched : list Z) (sessionIds : list EntityId)
           (varEntity : VariablesEntity) : list Z :=
  map variablesReference
      (filter (eligible ctx refsFetched sessionIds)
              (entityVariables varEntity)).

(** [childContextArgs], lines 87-91: [{ ...ctx, refsToFetch, variable }]. *)
Definition childContextArgs (ctx : FetchVariablesContextArg)
           (childRefs : list Z) (varEntity : VariablesEntity)
  : FetchVariablesContextArg :=
  mkCtx (sessionId ctx) (frame ctx) childRefs (Some varEntity)
        (scope ctx) (force ctx).

Section Loop.
(** the function itself, for the recursive call at line 92 *)
Variable self : FetchVariablesContextArg -> Z -> Z ->
                Async (list VariablesEntity).
Variable ctx : FetchVariablesContextArg.
Variables maxDepth currentDepth : Z.
(** [session], read once before the loop *)
Variable session : SessionState.

(** The [for ... of ctx.refsToFetch] loop, lines 49-95.  [refsFetched] and
    [variables] are the two arrays the loop pushes to. *)
Fixpoint forOf (refs : list Z) (refsFetched : list Z)
         (vars : list VariablesEntity) : Async (list VariablesEntity) :=
  match refs with
  | [] => ret vars
  | ref :: rest =>
    if ref =? 0 then forOf rest refsFetched vars
    else
      let args := mkArgs ref in
      body <- request (sessionId ctx) args ;;
      let refsFetched := refsFetched ++ [ref] in
      let varEntity := toVariablesEntity args body in
      dispatch (sessionId ctx) [varEntity] ;;;
      let vars := vars ++ [varEntity] in
      if currentDepth >=? maxDepth then forOf rest refsFetched vars
      else
        let childRefs :=
          childRefsToFetch ctx refsFetched (ids (variables session))
                           varEntity in
        let childCtx := childContextArgs ctx childRefs varEntity in
        enter childCtx maxDepth (currentDepth + 1) ;;;
        childVars <- self childCtx maxDepth (currentDepth + 1) ;;
        forOf rest refsFetched (vars ++ childVars)
  end.
End Loop.

(** The body of the function, lines 43-97, given the function to call at
    the recursive call. *)
Definition fetchBody
           (self : FetchVariablesContextArg -> Z -> Z ->
                   Async (list VariablesEntity))
           (ctx : FetchVariablesContextArg) (maxDepth currentDepth : Z)
  : Async (list VariablesEntity) :=
  state <- getState ;;
  let session := selectSessionState state (sessionId ctx) in
  let refsFetched := selectReferences (variables session) in
  forOf self ctx maxDepth currentDepth session (refsToFetch ctx) refsFetched [].

Fixpoint fetchFuel (fuel : nat) (ctx : FetchVariablesContextArg)
         (maxDepth currentDepth : Z) : Async (list VariablesEntity) :=
  match fuel with
  | O => fun _ => OutOfFuel
  | S fuel' => fetchBody (fetchFuel fuel') ctx maxDepth currentDepth
  end.

(** The recursive call is made only while [currentDepth < maxDepth], with
    [currentDepth + 1]: [maxDepth - currentDepth] nested calls at most. *)
Definition defaultFetchVariablesStrategy (ctx : FetchVariablesContextArg)
           (maxDepth currentDepth : Z) : Async (list VariablesEntity) :=
  fetchFuel (S (Z.to_nat (maxDepth - currentDepth))) ctx maxDepth currentDepth.

(** The default values of the two optional parameters. *)
Definition defaultMaxDepth : Z := 10.
Definition defaultCurrentDepth : Z := 0.

End Fetcher.

Arguments mkCtx {H} _ _ _ _ _ _.
Arguments Fulfilled {H A} a w.
Arguments Rejected {H A} w.
Arguments OutOfFuel {H A}.

(** ** Reading a run *)

Section Observations.
Context {H : Host}.

(** The world a settled promise leaves behind. *)
Definition settled {A} (r : Res A) : option World :=
  match r with
  | Fulfilled _ w => Some w
  | Rejected w => Some w
  | OutOfFuel => None
  end.

(** The side effects a run started in [w] has performed, oldest first. *)
Definition performed {A} (w : World) (r : Res A) : list Event :=
  match settled r with
  | Some w' => skipn (List.length (trace w)) (trace w')
  | None => []
  end.

(** The reference of every request sent. *)
Definition requested (evs : list Event) : list Z :=
  flat_map (fun e => match e with
                     | EvRequest _ a _ => [argsReference a]
                     | _ => []
                     end) evs.

(** The node of every request that was answered. *)
Definition resolved (evs : list Event) : list VariablesEntity :=
  flat_map (fun e => match e with
                     | EvRequest _ a (Some body) => [toVariablesEntity a body]
                     | _ => []
                     end) evs.

(** The nodes handed to [addVariables]. *)
Definition published (evs : list Event) : list VariablesEntity :=
  flat_map (fun e => match e with
                     | EvDispatch _ vs => vs
                     | _ => []
                     end) evs.

(** The contexts of the recursive calls. *)
Definition recursions (evs : list Event) : list FetchVariablesContextArg :=
  flat_map (fun e => match e with
                     | EvRecurse c _ _ => [c]
                     | _ => []
                     end) evs.

(** The store once every dispatch of [evs] has been reduced. *)
Definition replay (evs : list Event) (st : RootState) : RootState :=
  fold_left (fun st e => match e with
                         | EvDispatch sid vs => addVariables sid vs st
                         | _ => st
                         end) evs st.

Definition isFailure (e : Event) : bool :=
  match e with
  | EvRequest _ _ None => true
  | _ => false
  end.

(** What holds of every side effect of a call made with [ctx] at depth
    [d]: requests and dispatches are for the session of [ctx] and never for
    handle 0; a recursive call is deeper than [d], its handles are positive
    and its context has the session, frame, scope and force flag of [ctx]
    and a parent variable. *)
Definition eventOk (maxDepth : Z) (ctx : FetchVariablesContextArg) (d : Z)
           (e : Event) : Prop :=
  match e with
  | EvRequest sid a _ => sid = sessionId ctx /\ argsReference a <> 0
  | EvDispatch sid _ => sid = sessionId ctx
  | EvRecurse c md d' =>
    md = maxDepth /\ d < d' /\
    Forall (fun r => 0 < r) (refsToFetch c) /\
    sessionId c = sessionId ctx /\ frame c = frame ctx /\
    scope c = scope ctx /\ force c = force ctx /\
    variable c <> None
  end.

(** The four conditions of the filter, on one child descriptor. *)
Definition selectable (ctx : FetchVariablesContextArg) (refsFetched : list Z)
           (sessionIds : list EntityId) (v : DPVariable) : Prop :=
  0 < variablesReference v
  /\ ~ In (variablesReference v) refsFetched
  /\ (force ctx = Some true \/ hintLazy v <> Some true)
  /\ ~ In (IdStr (value v)) sessionIds.

(** At most one of [variable] and [scope] is set. *)
Definition parentExclusive (c : FetchVariablesContextArg) : Prop :=
  variable c = None \/ scope c = None.

(** ** The call tree of a fulfilled run *)

(** A resolved handle, its node and the subtrees of the recursive call
    made for it. *)
#[local] Unset Elimination Schemes.
Inductive Tree :=
| Node (ref : Z) (entity : VariablesEntity) (children : list Tree).
#[local] Set Elimination Schemes.

Definition rootRef (t : Tree) : Z :=
  match t with Node r _ _ => r end.

(** A node first, then the nodes below it, child by child. *)
Fixpoint preorder (t : Tree) : list VariablesEntity :=
  match t with
  | Node _ e kids => e :: flat_map preorder kids
  end.

Definition nonZero (r : Z) : bool := negb (r =? 0).

(** [Forest maxDepth ctx sessionIds d refsFetched refs ts]: the call tree
    of the loop of an invocation with [ctx] at depth [d] that still has
    [refs] to process, its array at [refsFetched].  [ts] has one tree per
    non-zero handle of [refs], in the order of [refs].  A tree at depth
    [maxDepth] or deeper is a leaf; the children of a shallower one are the
    trees of the recursive call, whose handles are the eligible children of
    the node. *)
Inductive Forest (maxDepth : Z) :
  FetchVariablesContextArg -> list EntityId -> Z ->
  list Z -> list Z -> list Tree -> Prop :=
| Forest_nil ctx sids d rf :
    Forest maxDepth ctx sids d rf [] []
| Forest_zero ctx sids d rf rest ts :
    Forest maxDepth ctx sids d rf rest ts ->
    Forest maxDepth ctx sids d rf (0 :: rest) ts
| Forest_leaf ctx sids d rf ref body rest ts :
    ref <> 0 -> maxDepth <= d ->
    Forest maxDepth ctx sids d (rf ++ [ref]) rest ts ->
    Forest maxDepth ctx sids d rf (ref :: rest)
           (Node ref (toVariablesEntity (mkArgs ref) body) [] :: ts)
| Forest_node ctx sids d rf ref body rfC sidsC kids rest ts :
    ref <> 0 -> d < maxDepth ->
    let node := toVariablesEntity (mkArgs ref) body in
    let childRefs := childRefsToFetch ctx (rf ++ [ref]) sids node in
    Forest maxDepth (childContextArgs ctx childRefs node) sidsC (d + 1)
           rfC childRefs kids ->
    Forest maxDepth ctx sids d (rf ++ [ref]) rest ts ->
    Forest maxDepth ctx sids d rf (ref :: rest) (Node ref node kids :: ts).

(** ** The runs of the loop, as a relation

    [LoopRun maxDepth ctx d session refs refsFetched vars w evs r]: the loop
    of a call with [ctx] at depth [d], about to process [refs] with the two
    arrays at [refsFetched] and [vars] in world [w], performs [evs] and
    settles as [r].  It is the graph of [forOf] closed under the recursive
    call; [fetchFuel_runs] shows the function follows it. *)
Inductive LoopRun (maxDepth : Z) :
  FetchVariablesContextArg -> Z -> SessionState ->
  list Z -> list Z -> list VariablesEntity -> World ->
  list Event -> Res (list VariablesEntity) -> Prop :=
| Run_done ctx d s rf vs w :
    LoopRun maxDepth ctx d s [] rf vs w [] (Fulfilled vs w)
| Run_skip ctx d s rest rf vs w evs r :
    LoopRun maxDepth ctx d s rest rf vs w evs r ->
    LoopRun maxDepth ctx d s (0 :: rest) rf vs w evs r
| Run_reject ctx d s ref rest rf vs w a' :
    ref <> 0 ->
    debugRequestAsync (sessionId ctx) (mkArgs ref) (adapter w) = (None, a') ->
    let req := EvRequest (sessionId ctx) (mkArgs ref) None in
    LoopRun maxDepth ctx d s (ref :: rest) rf vs w [req]
            (Rejected (mkWorld (store w) a' (trace w ++ [req])))
| Run_leaf ctx d s ref rest rf vs w body a' evs r :
    ref <> 0 ->
    debugRequestAsync (sessionId ctx) (mkArgs ref) (adapter w)
      = (Some body, a') ->
    maxDepth <= d ->
    let node := toVariablesEntity (mkArgs ref) body in
    let req := EvRequest (sessionId ctx) (mkArgs ref) (Some body) in
    let pub := EvDispatch (sessionId ctx) [node] in
    let w2 := mkWorld (addVariables (sessionId ctx) [node] (store w)) a'
                      ((trace w ++ [req]) ++ [pub]) in
    LoopRun maxDepth ctx d s rest (rf ++ [ref]) (vs ++ [node]) w2 evs r ->
    LoopRun maxDepth ctx d s (ref :: rest) rf vs w (req :: pub :: evs) r
| Run_child_reject ctx d s ref rest rf vs w body a' evsC w4 :
    ref <> 0 ->
    debugRequestAsync (sessionId ctx) (mkArgs ref) (adapter w)
      = (Some body, a') ->
    d < maxDepth ->
    let node := toVariablesEntity (mkArgs ref) body in
    let req := EvRequest (sessionId ctx) (mkArgs ref) (Some body) in
    let pub := EvDispatch (sessionId ctx) [node] in
    let childRefs :=
      childRefsToFetch ctx (rf ++ [ref]) (ids (variables s)) node in
    let childCtx := childContextArgs ctx childRefs node in
    let call := EvRecurse childCtx maxDepth (d + 1) in
    let w3 := mkWorld (addVariables (sessionId ctx) [node] (store w)) a'
                      (((trace w ++ [req]) ++ [pub]) ++ [call]) in
    LoopRun maxDepth childCtx (d + 1)
            (selectSessionState (store w3) (sessionId childCtx))
            childRefs
            (selectReferences
               (variables (selectSessionState (store w3) (sessionId childCtx))))
            [] w3 evsC (Rejected w4) ->
    LoopRun maxDepth ctx d s (ref :: rest) rf vs w
            (req :: pub :: call :: evsC) (Rejected w4)
| Run_child ctx d s ref rest rf vs w body a' evsC childVars w4 evs r :
    ref <> 0 ->
    debugRequestAsync (sessionId ctx) (mkArgs ref) (adapter w)
      = (Some body, a') ->
    d < maxDepth ->
    let node := toVariablesEntity (mkArgs ref) body in
    let req := EvRequest (sessionId ctx) (mkArgs ref) (Some body) in
    let pub := EvDispatch (sessionId ctx) [node] in
    let childRefs :=
      childRefsToFetch ctx (rf ++ [ref]) (ids (variables s)) node in
    let childCtx := childContextArgs ctx childRefs node in
    let call := EvRecurse childCtx maxDepth (d + 1) in
    let w3 := mkWorld (addVariables (sessionId ctx) [node] (store w)) a'
                      (((trace w ++ [req]) ++ [pub]) ++ [call]) in
    LoopRun maxDepth childCtx (d + 1)
            (selectSessionState (store w3) (sessionId childCtx))
            childRefs
            (selectReferences
               (variables (selectSessionState (store w3) (sessionId childCtx))))
            [] w3 evsC (Fulfilled childVars w4) ->
    LoopRun maxDepth ctx d s rest (rf ++ [ref]) ((vs ++ [node]) ++ childVars)
            w4 evs r ->
    LoopRun maxDepth ctx d s (ref :: rest) rf vs w
            (req :: pub :: call :: evsC ++ evs) r.

(** A whole call: the loop over [ctx.refsToFetch], started with the
    references the store reports and an empty result. *)
Definition FetchRun (maxDepth : Z) (ctx : FetchVariablesContextArg) (d : Z)
           (w : World) (evs : list Event) (r : Res (list VariablesEntity))
  : Prop :=
  let s := selectSessionState (store w) (sessionId ctx) in
  LoopRun maxDepth ctx d s (refsToFetch ctx)
          (selectReferences (variables s)) [] w evs r.

(** The shape of every sequence of side effects: an answered request is
    followed at once by the dispatch of its node, a recursive call comes
    right after the dispatch of the node it is made for, and a rejected
    request is the last thing that happens. *)
Inductive Shape : list Event -> Prop :=
| Shape_nil : Shape []
| Shape_fail sid a : Shape [EvRequest sid a None]
| Shape_leaf sid a body rest :
    Shape rest ->
    Shape (EvRequest sid a (Some body)
           :: EvDispatch sid [toVariablesEntity a body] :: rest)
| Shape_call sid a body c md d rest :
    variable c = Some (toVariablesEntity a body) ->
    sessionId c = sid ->
    Shape rest ->
    Shape (EvRequest sid a (Some body)
           :: EvDispatch sid [toVariablesEntity a body]
           :: EvRecurse c md d :: rest).

(** ** Contexts that differ in one field *)

(** [{ ...ctx, variable: v }] *)
Definition withVariable (ctx : FetchVariablesContextArg)
           (v : option VariablesEntity) : FetchVariablesContextArg :=
  mkCtx (sessionId ctx) (frame ctx) (refsToFetch ctx) v
        (scope ctx) (force ctx).

(** [{ ...ctx, refsToFetch: refs }] *)
Definition withRefs (ctx : FetchVariablesContextArg) (refs : list Z)
  : FetchVariablesContextArg :=
  mkCtx (sessionId ctx) (frame ctx) refs (variable ctx)
        (scope ctx) (force ctx).

(** An id that is a number, as the ids of the default strategy are. *)
Definition isNumericId (i : EntityId) : bool :=
  match i with
  | IdNum _ => true
  | IdStr _ => false
  end.

(** Two calls one after the other, the second in the world the first left,
    their results concatenated. *)
Definition thenFetch (first second : Async (list VariablesEntity))
  : Async (list VariablesEntity) :=
  bind first (fun vs1 => bind second (fun vs2 => ret (vs1 ++ vs2))).

(** ** The fetch without recursion

    The depth cutoff as the specification words it (4.1, steps 1 to 5 and
    8): the handles are taken in order, a zero is skipped, every other
    handle is requested, a failed request fails the call, and the node of
    an answered one is published and appended to the result; no child is
    computed and nothing is recursed into. *)
Fixpoint fetchEach (sid : string) (refs : list Z)
         (vars : list VariablesEntity) (w : World) {struct refs}
  : Res (list VariablesEntity) :=
  match refs with
  | [] => Fulfilled vars w
  | ref :: rest =>
    if ref =? 0 then fetchEach sid rest vars w
    else
      match debugRequestAsync sid (mkArgs ref) (adapter w) with
      | (Some body, a') =>
        let node := toVariablesEntity (mkArgs ref) body in
        fetchEach sid rest (vars ++ [node])
                  (mkWorld (addVariables sid [node] (store w)) a'
                           (trace w ++ [EvRequest sid (mkArgs ref) (Some body);
                                        EvDispatch sid [node]]))
      | (None, a') =>
        Rejected (mkWorld (store w) a'
                          (trace w ++ [EvRequest sid (mkArgs ref) None]))
      end
  end.

(** The handles of a tree, a node first, then those below it. *)
Fixpoint preorderRefs (t : Tree) : list Z :=
  match t with
  | Node r _ kids => r :: flat_map preorderRefs kids
  end.

(** ** What the fetcher expects of the store *)

(** The references the store reports for a session. *)
Definition sessionReferences (st : RootState) (sid : string) : list Z :=
  selectReferences (variables (selectSessionState st sid)).

(** Dispatching [addVariables] never makes the store forget a reference. *)
Definition storeKeepsReferences : Prop :=
  forall st sid sid' vs r,
    In r (sessionReferences st sid) ->
    In r (sessionReferences (addVariables sid' vs st) sid).

(** Under an invariant [Inv] of the store that every dispatch keeps, the
    store reports the handle of a node once the node was dispatched. *)
Definition storeReportsDispatched (Inv : RootState -> Prop) : Prop :=
  (forall st sid vs, Inv st -> Inv (addVariables sid vs st))
  /\ (forall st sid a body,
         Inv st ->
         In (argsReference a)
            (sessionReferences
               (addVariables sid [toVariablesEntity a body] st) sid)).

(** [PathFree path t]: going down [t] from its root, no handle is met that
    is in [path] or was met higher up. *)
#[local] Unset Elimination Schemes.
Inductive PathFree : list Z -> Tree -> Prop :=
| PathFree_node path r e kids :
    ~ In r path ->
    Forall (PathFree (r :: path)) kids ->
    PathFree path (Node r e kids).
#[local] Set Elimination Schemes.

End Observations.

(** ** A concrete host

    Used to run the strategy on explicit inputs. *)
Module SpecHost.

(** Modelled from the spec: the entity type and [toVariablesEntity] are not
    in the strategy file.  A VariableNode keeps the originating request
    arguments and the ordered child descriptors of the response. *)
Record Entity := mkEntity {
  entityArgs : VariablesArguments;
  entityChildren : list DPVariable
}.

(** Modelled from the spec: the session store is not in the strategy file.
    The SessionVariableStore holds, per session, the nodes published so far;
    every entry carries the id it is stored under. *)
Record Stored := mkStored {
  storedSession : string;
  storedId : EntityId;
  storedEntity : Entity
}.

Definition Store := list Stored.

Definition sessionOf (st : Store) (sid : string) : list Stored :=
  filter (fun s => String.eqb (storedSession s) sid) st.

(** "refsFetched": the handles of the nodes of the session. *)
Definition storeReferences (es : list Stored) : list Z :=
  map (fun s => argsReference (entityArgs (storedEntity s))) es.

(** "ids": the ids of the nodes of the session. *)
Definition storeIds (es : list Stored) : list EntityId :=
  map storedId es.

(** [publishNode], an idempotent append; by the comment at line 63 the id
    of a node is its [variablesReference] number. *)
Definition storeAddOne (sid : string) (st : Store) (e : Entity) : Store :=
  let id := IdNum (argsReference (entityArgs e)) in
  if existsb (fun s => String.eqb (storedSession s) sid
                       && EntityId_eqb (storedId s) id) st
  then st
  else st ++ [mkStored sid id e].

Definition storeAdd (sid : string) (vs : list Entity) (st : Store) : Store :=
  fold_left (storeAddOne sid) vs st.

(** Modelled from the spec: the debug adapter is an external process.
    [resolveChildren] answers with the children of a handle or fails; here
    a table from handles to children, a handle missing from the table being
    a failed request. *)
Definition Adapter := list (Z * list DPVariable).

Fixpoint children (a : Adapter) (ref : Z) : option (list DPVariable) :=
  match a with
  | [] => None
  | (r, vs) :: a' => if r =? ref then Some vs else children a' ref
  end.

Definition resolveChildren (sid : string) (args : VariablesArguments)
           (a : Adapter) : option (list DPVariable) * Adapter :=
  (children a (argsReference args), a).

#[export] Instance host : Host := {|
  StackFrameEntity := string;
  ScopeEntity := string;
  VariablesEntity := Entity;
  EntityState := list Stored;
  SessionState := list Stored;
  RootState := Store;
  AdapterState := Adapter;
  entityVariables := entityChildren;
  toVariablesEntity := mkEntity;
  selectSessionState := sessionOf;
  variables := fun s => s;
  selectReferences := storeReferences;
  ids := storeIds;
  addVariables := storeAdd;
  debugRequestAsync := resolveChildren
|}.

(** A plain child descriptor. *)
Definition var (n v : string) (ref : Z) : DPVariable := mkVar n v ref None.

Definition ctxOf (refs : list Z) : FetchVariablesContextArg :=
  mkCtx "s1"%string "main"%string refs None None None.

Definition worldOf (st : Store) (a : Adapter) : World := mkWorld st a [].

(** *** Inputs *)

(** Handle 100 has a plain child and an array with handle 200, which has
    no children; the store is empty. *)
Definition arrayAdapter : Adapter :=
  [(100, [var "x" "5" 0; var "arr" "[1,2]" 200]); (200, [])].
Definition arrayWorld : World := worldOf [] arrayAdapter.
Definition arrayCtx : FetchVariablesContextArg := ctxOf [100].

(** the node of handle 100 and the context of the recursive call made
    for it *)
Definition arrayNode : Entity :=
  mkEntity (mkArgs 100) [var "x" "5" 0; var "arr" "[1,2]" 200].
Definition arrayChildCtx : FetchVariablesContextArg :=
  mkCtx "s1"%string "main"%string [200] (Some arrayNode) None None.

(** The same handle twice in [refsToFetch]. *)
Definition twiceCtx : FetchVariablesContextArg := ctxOf [5; 5].
Definition twiceWorld : World := worldOf [] [(5, [])].

(** Handle 1 is answered, handle 2 is rejected. *)
Definition failingCtx : FetchVariablesContextArg := ctxOf [1; 2].
Definition failingWorld : World := worldOf [] [(1, [])].

(** A fetch rooted at a scope: [scope] is set, [variable] is not. *)
Definition scopedCtx : FetchVariablesContextArg :=
  mkCtx "s1"%string "main"%string [100] None (Some "Locals"%string) None.

(** Handle 1 has no expandable child, handle 2 has the child 3. *)
Definition pairCtx : FetchVariablesContextArg := ctxOf [1; 2].
Definition pairWorld : World :=
  worldOf [] [(1, [var "n" "1" 0]); (2, [var "arr" "[7]" 3]); (3, [])].

(** Two roots that both refer to handle 3. *)
Definition sharedCtx : FetchVariablesContextArg := ctxOf [1; 2].
Definition sharedWorld : World :=
  worldOf [] [(1, [var "a" "[7]" 3]); (2, [var "b" "[7]" 3]); (3, [])].

(** A negative handle, the zero handle and a positive one. *)
Definition mixedCtx : FetchVariablesContextArg := ctxOf [-3; 0; 4].
Definition mixedWorld : World := worldOf [] [(-3, []); (4, [])].

(** No handle at all. *)
Definition emptyCtx : FetchVariablesContextArg := ctxOf [].

(** A session that already holds the node of handle 7 and a node stored
    under the identity ["String@8"]; handle 100 has a child for each filter:
    a known handle, a lazy child, a known identity, a negative handle, a
    fresh child and a child whose lazy hint is false. *)
Definition knownStore : Store :=
  [mkStored "s1" (IdNum 7) (mkEntity (mkArgs 7) []);
   mkStored "s1" (IdStr "String@8") (mkEntity (mkArgs 8) [])].
Definition filterChildren : list DPVariable :=
  [var "known" "[3]" 7;
   mkVar "later" "..." 9 (Some (mkHint (Some true)));
   var "same" "String@8" 10;
   var "neg" "?" (-1);
   var "fresh" "[4]" 11;
   mkVar "now" "[5]" 12 (Some (mkHint (Some false)))].
Definition filterWorld : World :=
  worldOf knownStore
          [(100, filterChildren); (9, []); (10, []); (11, []); (12, [])].
Definition forcedCtx : FetchVariablesContextArg :=
  mkCtx "s1"%string "main"%string [100] None None (Some true).

(** the context of the recursive call made for 100 in the filter
    scenario *)
Definition filterChildCtx : FetchVariablesContextArg :=
  mkCtx "s1"%string "main"%string [11; 12]
        (Some (mkEntity (mkArgs 100) filterChildren)) None None.

(** Handle 1 has a child with handle 2, whose child has handle 1 again. *)
Definition cycleCtx : FetchVariablesContextArg := ctxOf [1].
Definition cycleWorld : World :=
  worldOf [] [(1, [var "b" "B@2" 2]); (2, [var "a" "A@1" 1])].

(** The host above with a store that reports no reference at all, to see
    what the fetcher does when the store does not record what is
    dispatched to it; and the cycle on that host. *)
Definition forgetfulHost : Host := {|
  StackFrameEntity := string;
  ScopeEntity := string;
  VariablesEntity := Entity;
  EntityState := list Stored;
  SessionState := list Stored;
  RootState := Store;
  AdapterState := Adapter;
  entityVariables := entityChildren;
  toVariablesEntity := mkEntity;
  selectSessionState := sessionOf;
  variables := fun s => s;
  selectReferences := fun _ => [];
  ids := storeIds;
  addVariables := storeAdd;
  debugRequestAsync := resolveChildren
|}.
Definition forgetfulCycleCtx : @FetchVariablesContextArg forgetfulHost :=
  @mkCtx forgetfulHost "s1"%string "main"%string [1] None None None.
Definition forgetfulCycleWorld : @World forgetfulHost :=
  @mkWorld forgetfulHost [] [(1, [var "b" "B@2" 2]); (2, [var "a" "A@1" 1])]
           [].

(** Zeros among the handles of the array scenario. *)
Definition paddedRefs : list Z := [0; 100; 0].

(** A store whose numeric ids are the handles of the nodes they name, as
    [storeAddOne] writes them. *)
Definition wellKeyed (st : Store) : Prop :=
  forall e n,
    In e st -> storedId e = IdNum n ->
    argsReference (entityArgs (storedEntity e)) = n.

End SpecHost.

(** * Properties *)

Section Properties.
Context {H : Host}.

(** ** The function follows the relation *)

Lemma LoopRun_settles maxDepth ctx d s refs rf vs w evs r :
  LoopRun maxDepth ctx d s refs rf vs w evs r -> r <> OutOfFuel.
Proof.
  induction 1; auto; discriminate.
Qed.

Lemma forOf_runs maxDepth self ctx d s :
  (d < maxDepth ->
   forall c w, exists evs,
       FetchRun maxDepth c (d + 1) w evs (self c maxDepth (d + 1) w)) ->
  forall refs rf vs w, exists evs,
      LoopRun maxDepth ctx d s refs rf vs w evs
              (forOf self ctx maxDepth d s refs rf vs w).
Proof.
  intros Hself refs.
  induction refs as [|ref rest IH]; intros rf vs w.
  - exists []. constructor.
  - cbn [forOf].
    destruct (ref =? 0) eqn:Ez.
    + apply Z.eqb_eq in Ez. subst ref.
      destruct (IH rf vs w) as [evs Hr].
      exists evs. now constructor.
    + apply Z.eqb_neq in Ez.
      unfold bind at 1. unfold request.
      destruct (debugRequestAsync (sessionId ctx) (mkArgs ref) (adapter w))
        as [[body|] a'] eqn:Eq.
      2:{ eexists. now apply Run_reject. }
      unfold bind at 1. unfold dispatch. cbn [store adapter trace].
      destruct (d >=? maxDepth) eqn:Ed.
      * apply Z.geb_le in Ed.
        edestruct IH as [evs Hr].
        eexists. eapply Run_leaf; eauto.
      * assert (Hd : d < maxDepth).
        { destruct (Z.lt_ge_cases d maxDepth) as [Hlt|Hge]; auto.
          apply Z.geb_le in Hge. congruence. }
        unfold bind at 1. unfold enter, emit. cbn [store adapter trace].
        unfold bind at 1.
        match goal with
        | |- context [self ?c maxDepth (d + 1) ?w3] =>
          destruct (Hself Hd c w3) as [evsC HC];
            destruct (self c maxDepth (d + 1) w3) as [childVars w4|w4|] eqn:Es
        end.
        -- edestruct IH as [evs Hr].
           eexists. eapply Run_child; eauto.
        -- eexists. eapply Run_child_reject; eauto.
        -- now apply LoopRun_settles in HC.
Qed.

Lemma fetchFuel_runs fuel :
  forall maxDepth ctx d w,
    (Z.to_nat (maxDepth - d) < fuel)%nat ->
    exists evs, FetchRun maxDepth ctx d w evs (fetchFuel fuel ctx maxDepth d w).
Proof.
  induction fuel as [|fuel IH]; intros maxDepth ctx d w Hfuel; [lia|].
  cbn [fetchFuel]. unfold fetchBody, bind, getState, FetchRun.
  apply forOf_runs.
  intros Hd c w'. apply IH. lia.
Qed.

(** The strategy always settles, and its run is a run of the relation. *)
Lemma strategy_runs maxDepth ctx d w :
  exists evs,
    FetchRun maxDepth ctx d w evs
             (defaultFetchVariablesStrategy ctx maxDepth d w).
Proof.
  apply fetchFuel_runs. lia.
Qed.

Lemma strategy_settles maxDepth ctx d w :
  exists w', settled (defaultFetchVariablesStrategy ctx maxDepth d w) = Some w'.
Proof.
  destruct (strategy_runs maxDepth ctx d w) as [evs Hr].
  apply LoopRun_settles in Hr.
  destruct (defaultFetchVariablesStrategy ctx maxDepth d w); cbn; eauto.
  congruence.
Qed.

(** ** What a run leaves in the world *)

Lemma LoopRun_trace maxDepth ctx d s refs rf vs w evs r :
  LoopRun maxDepth ctx d s refs rf vs w evs r ->
  exists w', settled r = Some w' /\ trace w' = trace w ++ evs.
Proof.
  induction 1; cbn.
  - eexists; split; eauto. now rewrite app_nil_r.
  - assumption.
  - eexists; split; eauto.
  - destruct IHLoopRun as (w' & Hs & Ht). exists w'. split; auto.
    rewrite Ht. cbn. now rewrite <- !app_assoc.
  - destruct IHLoopRun as (w' & Hs & Ht). cbn in Hs. inversion Hs; subst w'.
    eexists; split; eauto. rewrite Ht. cbn. now rewrite <- !app_assoc.
  - destruct IHLoopRun1 as (w1 & Hs1 & Ht1). cbn in Hs1.
    inversion Hs1; subst w1.
    destruct IHLoopRun2 as (w' & Hs & Ht). exists w'. split; auto.
    rewrite Ht, Ht1. cbn. now rewrite <- !app_assoc.
Qed.

Lemma LoopRun_performed maxDepth ctx d s refs rf vs w evs r :
  LoopRun maxDepth ctx d s refs rf vs w evs r ->
  performed w r = evs.
Proof.
  intros Hr. apply LoopRun_trace in Hr. destruct Hr as (w' & Hs & Ht).
  unfold performed. rewrite Hs, Ht.
  rewrite skipn_app, skipn_all, Nat.sub_diag. reflexivity.
Qed.

(** The run of the strategy, with the effects read off the final world. *)
Lemma strategy_run maxDepth ctx d w :
  let r := defaultFetchVariablesStrategy ctx maxDepth d w in
  FetchRun maxDepth ctx d w (performed w r) r.
Proof.
  intros r. destruct (strategy_runs maxDepth ctx d w) as [evs Hr].
  fold r in Hr. now rewrite (LoopRun_performed _ _ _ _ _ _ _ _ _ _ Hr).
Qed.

(** ** The filter *)

Lemma includesRef_In rf r : includesRef rf r = true <-> In r rf.
Proof.
  unfold includesRef. rewrite existsb_exists. split.
  - intros (x & Hx & E). apply Z.eqb_eq in E. now subst.
  - intros Hin. exists r. split; auto. apply Z.eqb_refl.
Qed.

Lemma includesId_In sids v : includesId sids v = true <-> In (IdStr v) sids.
Proof.
  unfold includesId. rewrite existsb_exists. split.
  - intros (x & Hx & E). destruct x as [n|s]; cbn in E; [discriminate|].
    apply String.eqb_eq in E. now subst.
  - intros Hin. exists (IdStr v). split; auto. cbn. apply String.eqb_refl.
Qed.

Lemma truthy_true b : truthy b = true <-> b = Some true.
Proof.
  destruct b as [[|]|]; cbn; split; congruence.
Qed.

Lemma eligible_selectable ctx rf sids v :
  eligible ctx rf sids v = true <-> selectable ctx rf sids v.
Proof.
  unfold eligible, selectable.
  rewrite !andb_true_iff, orb_true_iff, !negb_true_iff.
  rewrite <- !not_true_iff_false.
  rewrite includesRef_In, includesId_In, !truthy_true.
  rewrite Z.gtb_ltb, Z.ltb_lt. tauto.
Qed.

Lemma childRefsToFetch_In ctx rf sids e r :
  In r (childRefsToFetch ctx rf sids e) <->
  exists v, In v (entityVariables e) /\ variablesReference v = r
            /\ selectable ctx rf sids v.
Proof.
  unfold childRefsToFetch. rewrite in_map_iff. split.
  - intros (v & E & Hin). apply filter_In in Hin. destruct Hin as [Hin He].
    exists v. rewrite <- eligible_selectable. auto.
  - intros (v & Hin & E & Hs). exists v. split; auto.
    apply filter_In. rewrite eligible_selectable. auto.
Qed.

Lemma childRefsToFetch_positive ctx rf sids e :
  Forall (fun r => 0 < r) (childRefsToFetch ctx rf sids e).
Proof.
  apply Forall_forall. intros r Hin.
  apply childRefsToFetch_In in Hin. destruct Hin as (v & _ & E & Hs).
  subst r. apply Hs.
Qed.

(** ** Invariants of a run *)

Lemma eventOk_deeper maxDepth ctx d rf sids node e :
  eventOk maxDepth
          (childContextArgs ctx (childRefsToFetch ctx rf sids node) node)
          (d + 1) e ->
  eventOk maxDepth ctx d e.
Proof.
  destruct e as [sid a resp|sid vs|c md d']; cbn; auto.
  intros (Hmd & Hd & Hpos & Hs & Hf & Hsc & Hfo & Hv).
  repeat split; auto. lia.
Qed.

Lemma LoopRun_events maxDepth ctx d s refs rf vs w evs r :
  LoopRun maxDepth ctx d s refs rf vs w evs r ->
  Forall (eventOk maxDepth ctx d) evs.
Proof.
  induction 1; auto.
  - constructor; cbn; auto.
  - repeat constructor; cbn; auto.
  - repeat constructor; cbn; auto; try lia.
    + apply childRefsToFetch_positive.
    + discriminate.
    + eapply Forall_impl; [|exact IHLoopRun]. apply eventOk_deeper.
  - repeat constructor; cbn; auto; try lia.
    + apply childRefsToFetch_positive.
    + discriminate.
    + apply Forall_app. split; auto.
      eapply Forall_impl; [|exact IHLoopRun1]. apply eventOk_deeper.
Qed.

(** A fulfilled run saw no rejected request; a rejected run ends with one
    and saw no other. *)
Lemma LoopRun_outcome maxDepth ctx d s refs rf vs w evs r :
  LoopRun maxDepth ctx d s refs rf vs w evs r ->
  match r with
  | Fulfilled _ _ => existsb isFailure evs = false
  | Rejected _ =>
    exists pre sid a,
      evs = pre ++ [EvRequest sid a None] /\ existsb isFailure pre = false
  | OutOfFuel => False
  end.
Proof.
  induction 1; cbn; auto.
  - exists [], (sessionId ctx), (mkArgs ref). auto.
  - destruct r as [vs' w'|w'|]; auto.
    destruct IHLoopRun as (pre & sid & a & E & Hp).
    exists (req :: pub :: pre), sid, a. rewrite E. auto.
  - destruct IHLoopRun as (pre & sid & a & E & Hp).
    exists (req :: pub :: call :: pre), sid, a. rewrite E. auto.
  - cbn in IHLoopRun1.
    destruct r as [vs' w'|w'|]; auto.
    + rewrite existsb_app, IHLoopRun1. auto.
    + destruct IHLoopRun2 as (pre & sid & a & E & Hp).
      exists (req :: pub :: call :: evsC ++ pre), sid, a. rewrite E. split.
      * cbn. now rewrite <- app_assoc.
      * cbn. rewrite existsb_app, IHLoopRun1. auto.
Qed.

Lemma Shape_app a b :
  Shape a -> existsb isFailure a = false -> Shape b -> Shape (a ++ b).
Proof.
  induction 1; cbn; intros Hf Hb; auto; try discriminate.
  - apply Shape_leaf. auto.
  - apply Shape_call; auto.
Qed.

Lemma LoopRun_shape maxDepth ctx d s refs rf vs w evs r :
  LoopRun maxDepth ctx d s refs rf vs w evs r -> Shape evs.
Proof.
  induction 1; auto; try (constructor; fail).
  - subst req pub node. now apply Shape_leaf.
  - subst req pub call node. apply Shape_call; auto.
  - subst req pub call node. apply Shape_call; auto.
    apply Shape_app; auto.
    match goal with
    | HC : LoopRun _ _ _ _ _ _ _ _ evsC _ |- _ =>
      now apply LoopRun_outcome in HC
    end.
Qed.

Lemma Shape_published evs : Shape evs -> published evs = resolved evs.
Proof.
  induction 1; unfold published, resolved in *; cbn; auto; f_equal; auto.
Qed.

(** The store changes by the dispatches only. *)
Lemma replay_app a b st : replay (a ++ b) st = replay b (replay a st).
Proof. apply fold_left_app. Qed.

Lemma LoopRun_store maxDepth ctx d s refs rf vs w evs r :
  LoopRun maxDepth ctx d s refs rf vs w evs r ->
  forall w', settled r = Some w' -> store w' = replay evs (store w).
Proof.
  induction 1; intros w' Hs.
  - cbn in Hs. now inversion Hs.
  - auto.
  - cbn in Hs. now inversion Hs.
  - change (req :: pub :: evs) with ([req; pub] ++ evs).
    now rewrite replay_app, (IHLoopRun w' Hs).
  - change (req :: pub :: call :: evsC) with ([req; pub; call] ++ evsC).
    now rewrite replay_app, (IHLoopRun w' Hs).
  - change (req :: pub :: call :: evsC ++ evs)
      with ([req; pub; call] ++ evsC ++ evs).
    now rewrite !replay_app, (IHLoopRun2 w' Hs), (IHLoopRun1 w4 eq_refl).
Qed.

(** The array returned is the array at the start followed by the node of
    every answered request, in the order of the requests. *)
Lemma resolved_app a b : resolved (a ++ b) = resolved a ++ resolved b.
Proof. apply flat_map_app. Qed.

Lemma LoopRun_values maxDepth ctx d s refs rf vs w evs r :
  LoopRun maxDepth ctx d s refs rf vs w evs r ->
  forall vs' w', r = Fulfilled vs' w' -> vs' = vs ++ resolved evs.
Proof.
  induction 1; intros vs' w' E; try discriminate.
  - inversion E; subst. cbn. now rewrite app_nil_r.
  - eauto.
  - change (req :: pub :: evs) with ([req; pub] ++ evs).
    rewrite (IHLoopRun _ _ E), resolved_app. cbn.
    now rewrite <- app_assoc.
  - change (req :: pub :: call :: evsC ++ evs)
      with ([req; pub; call] ++ evsC ++ evs).
    rewrite (IHLoopRun2 _ _ E), !resolved_app.
    specialize (IHLoopRun1 _ _ eq_refl). cbn in IHLoopRun1.
    rewrite IHLoopRun1. cbn.
    now rewrite <- !app_assoc.
Qed.

(** A recursive call found among the effects of the child run is deeper
    than the calls the invocation makes itself. *)
Ltac deeper_call Hin :=
  match goal with
  | HC : LoopRun _ _ _ _ _ _ _ _ ?evsC _, Hin : In _ ?evsC |- _ =>
    apply LoopRun_events in HC;
    rewrite Forall_forall in HC; apply HC in Hin; cbn in Hin; lia
  end.

(** The recursive calls an invocation makes itself (those one level down):
    each is made for a non-zero handle [h] of [refs], with the context
    derived from [ctx] and the children filtered against the array
    [refsFetched] as it stands once [h] has been pushed. *)
Lemma LoopRun_own_calls maxDepth ctx d s refs rf vs w evs r :
  LoopRun maxDepth ctx d s refs rf vs w evs r ->
  forall c md, In (EvRecurse c md (d + 1)) evs ->
  exists pre h post body,
    refs = pre ++ h :: post /\ h <> 0 /\
    c = childContextArgs ctx
          (childRefsToFetch ctx (rf ++ filter nonZero pre ++ [h])
                            (ids (variables s))
                            (toVariablesEntity (mkArgs h) body))
          (toVariablesEntity (mkArgs h) body).
Proof.
  assert (Hnz : forall x, x <> 0 -> nonZero x = true).
  { intros x Hx. unfold nonZero. now apply Z.eqb_neq in Hx; rewrite Hx. }
  induction 1; intros c md Hin.
  - destruct Hin.
  - destruct (IHLoopRun c md Hin) as (pre & h & post & body & E & Hh & Hc).
    exists (0 :: pre), h, post, body. subst rest. cbn. auto.
  - destruct Hin as [Hin|[]]. discriminate.
  - destruct Hin as [Hin|[Hin|Hin]]; try discriminate.
    destruct (IHLoopRun c md Hin) as (pre & h & post & body' & E & Hh & Hc).
    exists (ref :: pre), h, post, body'. subst rest. cbn.
    rewrite (Hnz ref) by assumption. cbn.
    rewrite <- app_assoc in Hc. auto.
  - destruct Hin as [Hin|[Hin|[Hin|Hin]]]; try discriminate.
    + inversion Hin; subst c md.
      exists [], ref, rest, body. cbn. auto.
    + deeper_call Hin.
  - destruct Hin as [Hin|[Hin|[Hin|Hin]]]; try discriminate.
    + inversion Hin; subst c md.
      exists [], ref, rest, body. cbn. auto.
    + apply in_app_or in Hin. destruct Hin as [Hin|Hin].
      * deeper_call Hin.
      * destruct (IHLoopRun2 c md Hin)
          as (pre & h & post & body' & E & Hh & Hc).
        exists (ref :: pre), h, post, body'. subst rest. cbn.
        rewrite (Hnz ref) by assumption. cbn.
        rewrite <- app_assoc in Hc. auto.
Qed.

(** ** A run is determined by where it starts *)

Ltac same_response :=
  match goal with
  | H1 : debugRequestAsync ?s ?a ?st = _,
    H2 : debugRequestAsync ?s ?a ?st = _ |- _ =>
    rewrite H1 in H2; inversion H2; subst; clear H2
  end.

Lemma LoopRun_deterministic maxDepth ctx d s refs rf vs w evs r :
  LoopRun maxDepth ctx d s refs rf vs w evs r ->
  forall evs' r',
    LoopRun maxDepth ctx d s refs rf vs w evs' r' ->
    evs = evs' /\ r = r'.
Proof.
  induction 1; intros evs' r' Hrun; inversion Hrun; subst;
    try congruence; try lia; try same_response; try discriminate.
  - auto.
  - auto.
  - auto.
  - match goal with
    | Hrest : LoopRun _ _ _ _ rest _ _ _ _ _ |- _ =>
      destruct (IHLoopRun _ _ Hrest) as [Ee Er]
    end.
    subst. auto.
  - match goal with
    | Hc : LoopRun _ _ (d + 1) _ _ _ _ _ _ _ |- _ =>
      destruct (IHLoopRun _ _ Hc) as [Ee Er]
    end.
    subst. auto.
  - match goal with
    | Hc : LoopRun _ _ (d + 1) _ _ _ _ _ _ _ |- _ =>
      destruct (IHLoopRun _ _ Hc) as [Ee Er]
    end.
    discriminate.
  - match goal with
    | Hc : LoopRun _ _ (d + 1) _ _ _ _ _ _ _ |- _ =>
      destruct (IHLoopRun1 _ _ Hc) as [Ee Er]
    end.
    discriminate.
  - match goal with
    | Hc : LoopRun _ _ (d + 1) _ _ _ _ _ _ _ |- _ =>
      destruct (IHLoopRun1 _ _ Hc) as [Ee Er]
    end.
    inversion Er; subst.
    match goal with
    | Hrest : LoopRun _ _ d _ rest _ _ _ _ _ |- _ =>
      destruct (IHLoopRun2 _ _ Hrest) as [Ee' Er']
    end.
    subst. auto.
Qed.

(** The run of a recursive call is the run of the strategy. *)
Lemma FetchRun_is_strategy maxDepth ctx d w evs r :
  FetchRun maxDepth ctx d w evs r ->
  r = defaultFetchVariablesStrategy ctx maxDepth d w
  /\ evs = performed w r.
Proof.
  intros Hrun.
  pose proof (strategy_run maxDepth ctx d w) as Hs. cbn zeta in Hs.
  destruct (LoopRun_deterministic _ _ _ _ _ _ _ _ _ _ Hrun _ _ Hs)
    as [Ee Er].
  split; [exact Er|]. now rewrite Er.
Qed.

(** What follows the marker of a recursive call is the run of the strategy
    on the context of the marker, started in the world the marker was left
    in; the rest of the caller's effects comes after it. *)
Lemma LoopRun_call_segment maxDepth ctx d s refs rf vs w evs r :
  LoopRun maxDepth ctx d s refs rf vs w evs r ->
  forall pre c md d' post,
    evs = pre ++ EvRecurse c md d' :: post ->
    exists w3 rest,
      trace w3 = trace w ++ pre ++ [EvRecurse c md d']
      /\ store w3 = replay pre (store w)
      /\ post = performed w3 (defaultFetchVariablesStrategy c md d' w3)
                ++ rest.
Proof.
  induction 1; intros pre c md d' post E.
  - destruct pre; discriminate.
  - eauto.
  - destruct pre as [|e [|e' pre]]; discriminate.
  - destruct pre as [|e1 [|e2 pre]]; try discriminate.
    injection E as E1 E2 E3. subst e1 e2.
    destruct (IHLoopRun _ _ _ _ _ E3) as (w3 & rest' & Ht & Hs & Ep).
    exists w3, rest'. split; [|split]; auto.
    rewrite Ht. cbn. now rewrite <- !app_assoc.
  - destruct pre as [|e1 [|e2 [|e3 pre]]]; try discriminate.
    + inversion E; subst.
      exists w3, []. split; [|split].
      * subst w3. cbn [trace]. now rewrite <- !app_assoc.
      * reflexivity.
      * rewrite app_nil_r.
        match goal with
        | HC : LoopRun _ _ _ _ _ _ _ _ _ _ |- _ =>
          apply FetchRun_is_strategy in HC; destruct HC as [Er Ee]
        end.
        now rewrite <- Er.
    + injection E as E1 E2 E3 E4. subst e1 e2 e3.
      destruct (IHLoopRun _ _ _ _ _ E4) as (w3' & rest' & Ht & Hs & Ep).
      exists w3', rest'. split; [|split]; auto.
      rewrite Ht. cbn. now rewrite <- !app_assoc.
  - destruct pre as [|e1 [|e2 [|e3 pre]]]; try discriminate.
    + inversion E; subst.
      exists w3, evs. split; [|split].
      * subst w3. cbn [trace]. now rewrite <- !app_assoc.
      * reflexivity.
      * f_equal.
        match goal with
        | HC : LoopRun _ _ (d + 1) _ _ _ _ _ _ _ |- _ =>
          apply FetchRun_is_strategy in HC; destruct HC as [Er Ee]
        end.
        now rewrite <- Er.
    + injection E as E1 E2 E3 E4. subst e1 e2 e3.
      match goal with
      | HC : LoopRun _ _ (d + 1) _ _ _ _ _ _ _ |- _ =>
        pose proof (LoopRun_trace _ _ _ _ _ _ _ _ _ _ HC)
          as (w4' & Hs4 & Ht4);
          pose proof (LoopRun_store _ _ _ _ _ _ _ _ _ _ HC w4 eq_refl)
          as Hst4
      end.
      cbn in Hs4. inversion Hs4; subst w4'.
      apply app_eq_app in E4. destruct E4 as [l [[Ec El]|[Ep El]]].
      * destruct l as [|m l].
        -- cbn in El. rewrite app_nil_r in Ec. subst pre.
           destruct (IHLoopRun2 [] _ _ _ _ (eq_sym El))
             as (w3' & rest' & Ht & Hs & Epost).
           exists w3', rest'. split; [|split]; auto.
           ++ rewrite Ht, Ht4. cbn. now rewrite <- !app_assoc.
           ++ rewrite Hs, Hst4. cbn. reflexivity.
        -- inversion El; subst m post.
           destruct (IHLoopRun1 _ _ _ _ _ Ec)
             as (w3' & rest' & Ht & Hs & Epost).
           exists w3', (rest' ++ evs). split; [|split].
           ++ rewrite Ht. cbn. now rewrite <- !app_assoc.
           ++ rewrite Hs. reflexivity.
           ++ rewrite Epost. now rewrite <- app_assoc.
      * subst pre.
        destruct (IHLoopRun2 _ _ _ _ _ El)
          as (w3' & rest' & Ht & Hs & Epost).
        exists w3', rest'. split; [|split]; auto.
        -- rewrite Ht, Ht4. cbn. now rewrite <- !app_assoc.
        -- rewrite Hs, Hst4.
           change (req :: pub :: call :: evsC ++ l)
             with ([req; pub; call] ++ evsC ++ l).
           now rewrite !replay_app.
Qed.

(** ** Reading the effects *)

Lemma requested_In evs h :
  In h (requested evs) <->
  exists sid a resp, In (EvRequest sid a resp) evs /\ argsReference a = h.
Proof.
  unfold requested. rewrite in_flat_map. split.
  - intros (e & Hin & Hh). destruct e as [sid a resp| |]; cbn in Hh;
      try contradiction.
    destruct Hh as [E|[]]. eauto.
  - intros (sid & a & resp & Hin & E).
    exists (EvRequest sid a resp). cbn. auto.
Qed.

Lemma resolved_In evs v :
  In v (resolved evs) <->
  exists sid a body,
    In (EvRequest sid a (Some body)) evs /\ v = toVariablesEntity a body.
Proof.
  unfold resolved. rewrite in_flat_map. split.
  - intros (e & Hin & Hv). destruct e as [sid a [body|]| |]; cbn in Hv;
      try contradiction.
    destruct Hv as [E|[]]. eauto.
  - intros (sid & a & body & Hin & E).
    exists (EvRequest sid a (Some body)). cbn. auto.
Qed.

Lemma recursions_In evs c :
  In c (recursions evs) <-> exists md d, In (EvRecurse c md d) evs.
Proof.
  unfold recursions. rewrite in_flat_map. split.
  - intros (e & Hin & Hc). destruct e as [| |c' md d]; cbn in Hc;
      try contradiction.
    destruct Hc as [E|[]]. subst. eauto.
  - intros (md & d & Hin). exists (EvRecurse c md d). cbn. auto.
Qed.

Lemma Shape_dispatch evs :
  Shape evs ->
  forall sid vs, In (EvDispatch sid vs) evs ->
  exists a body,
    vs = [toVariablesEntity a body] /\ In (EvRequest sid a (Some body)) evs.
Proof.
  induction 1; intros sid' vs Hin.
  - destruct Hin.
  - destruct Hin as [E|[]]. discriminate.
  - destruct Hin as [E|[E|Hin]]; try discriminate.
    + inversion E; subst. exists a, body. cbn. auto.
    + destruct (IHShape _ _ Hin) as (a' & body' & Ev & Hr).
      exists a', body'. cbn. auto.
  - destruct Hin as [E|[E|[E|Hin]]]; try discriminate.
    + inversion E; subst. exists a, body. cbn. auto.
    + destruct (IHShape _ _ Hin) as (a' & body' & Ev & Hr).
      exists a', body'. cbn. auto.
Qed.

Lemma Shape_request_dispatched evs :
  Shape evs ->
  forall sid a body, In (EvRequest sid a (Some body)) evs ->
  In (EvDispatch sid [toVariablesEntity a body]) evs.
Proof.
  induction 1; intros sid' a' body' Hin.
  - destruct Hin.
  - destruct Hin as [E|[]]. discriminate.
  - destruct Hin as [E|[E|Hin]]; try discriminate.
    + inversion E; subst. cbn. auto.
    + cbn. auto.
  - destruct Hin as [E|[E|[E|Hin]]]; try discriminate.
    + inversion E; subst. cbn. auto.
    + cbn. auto.
Qed.

Lemma answered_count evs :
  existsb isFailure evs = false ->
  List.length (resolved evs) = List.length (requested evs).
Proof.
  induction evs as [|e evs IH]; cbn; auto.
  intros Hf. apply orb_false_iff in Hf. destruct Hf as [He Hf].
  unfold resolved, requested in *. cbn. rewrite !length_app, IH by assumption.
  destruct e as [sid a [body|]| |]; cbn in *; auto. discriminate.
Qed.

Lemma requested_app a b : requested (a ++ b) = requested a ++ requested b.
Proof. apply flat_map_app. Qed.

Lemma recursions_app a b : recursions (a ++ b) = recursions a ++ recursions b.
Proof. apply flat_map_app. Qed.

Lemma published_app a b : published (a ++ b) = published a ++ published b.
Proof. apply flat_map_app. Qed.

(** At the depth bound the loop only requests and publishes: it works
    through the non-zero handles in order and never calls the function. *)
Lemma LoopRun_cutoff maxDepth ctx d s refs rf vs w evs r :
  LoopRun maxDepth ctx d s refs rf vs w evs r ->
  maxDepth <= d ->
  recursions evs = []
  /\ exists todo,
      filter nonZero refs = requested evs ++ todo
      /\ (forall vs' w', r = Fulfilled vs' w' -> todo = []).
Proof.
  assert (Hnz : forall x, x <> 0 -> nonZero x = true).
  { intros x Hx. unfold nonZero. now apply Z.eqb_neq in Hx; rewrite Hx. }
  induction 1; intros Hd; try lia.
  - split; auto. exists []. auto.
  - destruct (IHLoopRun Hd) as (Hrec & todo & E & Hdone).
    split; auto. exists todo. auto.
  - split; auto. exists (filter nonZero rest). split.
    + cbn. now rewrite (Hnz ref).
    + discriminate.
  - destruct (IHLoopRun Hd) as (Hrec & todo & E & Hdone).
    split; auto. exists todo. split; auto.
    cbn. rewrite (Hnz ref) by assumption.
    unfold requested in *. cbn. now rewrite E.
Qed.

(** A rejected request is the last effect of a run. *)
Lemma failure_is_last pre sid a sid' a' :
  existsb isFailure pre = false ->
  In (EvRequest sid a None) (pre ++ [EvRequest sid' a' None]) ->
  sid = sid' /\ a = a'.
Proof.
  intros Hp Hin. apply in_app_or in Hin. destruct Hin as [Hin|[E|[]]].
  - assert (existsb isFailure pre = true); [|congruence].
    apply existsb_exists. exists (EvRequest sid a None). auto.
  - inversion E. auto.
Qed.

(** In a sequence of the right shape the event after an answered request is
    the dispatch of its node, and the two events before a recursive call
    are the request and the dispatch of the node it is made for. *)
Lemma Shape_after_request evs :
  Shape evs ->
  forall pre sid a body post,
    evs = pre ++ EvRequest sid a (Some body) :: post ->
    exists post', post = EvDispatch sid [toVariablesEntity a body] :: post'.
Proof.
  induction 1; intros pre sid' a' body' post E.
  - destruct pre; discriminate.
  - destruct pre as [|e [|e' pre]]; discriminate.
  - destruct pre as [|e1 [|e2 pre]]; cbn in E.
    + inversion E; subst. eauto.
    + inversion E.
    + inversion E; subst. eauto.
  - destruct pre as [|e1 [|e2 [|e3 pre]]]; cbn in E.
    + inversion E; subst. eauto.
    + inversion E.
    + inversion E.
    + inversion E; subst. eauto.
Qed.

Lemma Shape_before_call evs :
  Shape evs ->
  forall pre c md d post,
    evs = pre ++ EvRecurse c md d :: post ->
    exists pre' a body,
      pre = pre' ++ [EvRequest (sessionId c) a (Some body);
                     EvDispatch (sessionId c) [toVariablesEntity a body]]
      /\ variable c = Some (toVariablesEntity a body).
Proof.
  induction 1; intros pre c' md' d' post E.
  - destruct pre; discriminate.
  - destruct pre as [|e [|e' pre]]; discriminate.
  - destruct pre as [|e1 [|e2 pre]]; cbn in E.
    + inversion E.
    + inversion E.
    + inversion E; subst.
      destruct (IHShape _ _ _ _ _ eq_refl) as (pre' & a' & body' & Ep & Hv).
      exists (EvRequest sid a (Some body)
              :: EvDispatch sid [toVariablesEntity a body] :: pre'), a', body'.
      rewrite Ep. auto.
  - destruct pre as [|e1 [|e2 [|e3 pre]]]; cbn in E.
    + inversion E.
    + inversion E.
    + inversion E; subst. exists [], a, body. cbn. auto.
    + inversion E; subst.
      destruct (IHShape _ _ _ _ _ eq_refl) as (pre' & a' & body' & Ep & Hv).
      exists (EvRequest (sessionId c) a (Some body)
              :: EvDispatch (sessionId c) [toVariablesEntity a body]
              :: EvRecurse c md d :: pre'), a', body'.
      rewrite Ep. auto.
Qed.

(** A fulfilled loop has sent an answered request for every non-zero
    handle it was given. *)
Lemma LoopRun_requests_all maxDepth ctx d s refs rf vs w evs r :
  LoopRun maxDepth ctx d s refs rf vs w evs r ->
  forall vs' w', r = Fulfilled vs' w' ->
  forall h, In h refs -> h <> 0 ->
  exists body, In (EvRequest (sessionId ctx) (mkArgs h) (Some body)) evs.
Proof.
  induction 1; intros vs' w' E h Hin Hh; try discriminate.
  - destruct Hin.
  - destruct Hin as [E0|Hin]; [congruence|]. eauto.
  - destruct Hin as [E0|Hin].
    + subst h. exists body. cbn. auto.
    + destruct (IHLoopRun _ _ E h Hin Hh) as [body' Hb].
      exists body'. cbn. auto.
  - destruct Hin as [E0|Hin].
    + subst h. exists body. cbn. auto.
    + destruct (IHLoopRun2 _ _ E h Hin Hh) as [body' Hb].
      exists body'. cbn. right. right. right. apply in_or_app. auto.
Qed.

(** ** The call tree *)

Lemma LoopRun_forest maxDepth ctx d s refs rf vs w evs r :
  LoopRun maxDepth ctx d s refs rf vs w evs r ->
  forall vs' w', r = Fulfilled vs' w' ->
  exists ts,
    Forest maxDepth ctx (ids (variables s)) d rf refs ts
    /\ vs' = vs ++ flat_map preorder ts.
Proof.
  induction 1; intros vs' w' E; try discriminate.
  - inversion E; subst. exists []. split; [constructor|].
    cbn. now rewrite app_nil_r.
  - destruct (IHLoopRun _ _ E) as (ts & Hf & Ev).
    exists ts. split; auto. now constructor.
  - destruct (IHLoopRun _ _ E) as (ts & Hf & Ev).
    exists (Node ref node [] :: ts). split.
    + now apply Forest_leaf.
    + rewrite Ev. cbn. now rewrite <- app_assoc.
  - destruct (IHLoopRun1 _ _ eq_refl) as (kids & Hk & Ek).
    destruct (IHLoopRun2 _ _ E) as (ts & Hf & Ev).
    exists (Node ref node kids :: ts). split.
    + eapply Forest_node; eauto.
    + rewrite Ev, Ek. cbn. now rewrite <- !app_assoc.
Qed.

Lemma Forest_roots maxDepth ctx sids d rf refs ts :
  Forest maxDepth ctx sids d rf refs ts ->
  map rootRef ts = filter nonZero refs.
Proof.
  assert (Hnz : forall x, x <> 0 -> nonZero x = true).
  { intros x Hx. unfold nonZero. now apply Z.eqb_neq in Hx; rewrite Hx. }
  induction 1; cbn; auto.
  - rewrite (Hnz ref) by assumption. cbn. now f_equal.
  - rewrite (Hnz ref) by assumption. cbn. now f_equal.
Qed.

Lemma Forest_no_handles maxDepth ctx sids d rf ts :
  Forest maxDepth ctx sids d rf [] ts -> ts = [].
Proof.
  now inversion 1.
Qed.

(** The forest of two non-zero handles. *)
Lemma Forest_pair maxDepth ctx sids d rf A B ts :
  Forest maxDepth ctx sids d rf [A; B] ts ->
  A <> 0 -> B <> 0 ->
  exists bodyA bodyB kidsA kidsB,
    let nodeA := toVariablesEntity (mkArgs A) bodyA in
    let nodeB := toVariablesEntity (mkArgs B) bodyB in
    ts = [Node A nodeA kidsA; Node B nodeB kidsB]
    /\ (childRefsToFetch ctx (rf ++ [A]) sids nodeA = [] -> kidsA = []).
Proof.
  intros Hf HA HB.
  inversion Hf as [ | | ? ? ? ? ? bodyA ? tsA ? ? HfA
                   | ? ? ? ? ? bodyA rfC sidsC kidsA ? tsA ? ? ? ? HkA HfA ];
    subst; try congruence.
  - inversion HfA as [ | | ? ? ? ? ? bodyB ? tsB ? ? HfB
                     | ? ? ? ? ? bodyB rfD sidsD kidsB ? tsB ? ? ? ? HkB HfB ];
      subst; try congruence; try lia.
    apply Forest_no_handles in HfB. subst tsB.
    exists bodyA, bodyB, [], []. cbn zeta. auto.
  - inversion HfA as [ | | ? ? ? ? ? bodyB ? tsB ? ? HfB
                     | ? ? ? ? ? bodyB rfD sidsD kidsB ? tsB ? ? ? ? HkB HfB ];
      subst; try congruence; try lia.
    apply Forest_no_handles in HfB. subst tsB.
    exists bodyA, bodyB, kidsA, kidsB. cbn zeta. split; auto.
    intros Hnone. subst childRefs node. rewrite Hnone in HkA.
    now apply Forest_no_handles in HkA.
Qed.

(** At the depth bound the loop is the fetch without recursion. *)
Lemma forOf_at_bound_is_fetchEach self ctx maxDepth d s :
  maxDepth <= d ->
  forall refs rf vs w,
    forOf self ctx maxDepth d s refs rf vs w
    = fetchEach (sessionId ctx) refs vs w.
Proof.
  intros Hd refs.
  assert (Hge : (d >=? maxDepth) = true) by now apply Z.geb_le.
  induction refs as [|ref rest IH]; intros rf vs w; [reflexivity|].
  cbn [forOf fetchEach]. destruct (ref =? 0); [apply IH|].
  unfold bind, request, dispatch.
  destruct (debugRequestAsync (sessionId ctx) (mkArgs ref) (adapter w))
    as [[body|] a']; [|reflexivity].
  rewrite Hge. cbn [store adapter trace].
  rewrite IH. now rewrite <- app_assoc.
Qed.

(** A fulfilled loop has sent a request for every occurrence of a non-zero
    handle in its list. *)
Lemma LoopRun_requests_each maxDepth ctx d s refs rf vs w evs r :
  LoopRun maxDepth ctx d s refs rf vs w evs r ->
  forall vs' w', r = Fulfilled vs' w' ->
  forall h, h <> 0 ->
  (count_occ Z.eq_dec refs h <= count_occ Z.eq_dec (requested evs) h)%nat.
Proof.
  induction 1; intros vs' w' E h Hh; try discriminate.
  - cbn. lia.
  - cbn [count_occ]. destruct (Z.eq_dec 0 h); [congruence|]. eauto.
  - change (req :: pub :: evs) with ([req; pub] ++ evs).
    rewrite requested_app, count_occ_app.
    specialize (IHLoopRun _ _ E h Hh).
    subst req pub. unfold requested at 1.
    cbn [flat_map app count_occ argsReference].
    destruct (Z.eq_dec ref h); lia.
  - change (req :: pub :: call :: evsC ++ evs)
      with ([req; pub; call] ++ evsC ++ evs).
    rewrite !requested_app, !count_occ_app.
    specialize (IHLoopRun2 _ _ E h Hh).
    subst req pub call. unfold requested at 1.
    cbn [flat_map app count_occ argsReference].
    destruct (Z.eq_dec ref h); lia.
Qed.

(** ** The claims *)

(** C1, as the code has it.  Within one invocation, the handles passed to
    a recursive call are filtered against the [refsFetched] array of that
    invocation: none of them is among the references the store reported
    when the invocation started, none is the handle of the parent node, and
    none occurs earlier in the invocation's own [refsToFetch]; each comes
    from a child descriptor whose [value] is not among the [ids] the
    session had when the invocation started.  The handles of [refsToFetch]
    themselves are not filtered: whatever the store reports, a call that
    returns has sent a request for every occurrence of a non-zero handle
    in [refsToFetch]. *)
Theorem selected_children_not_in_refsFetched ctx maxDepth currentDepth w :
  let r := defaultFetchVariablesStrategy ctx maxDepth currentDepth w in
  let evs := performed w r in
  let session := selectSessionState (store w) (sessionId ctx) in
  (forall c md, In (EvRecurse c md (currentDepth + 1)) evs ->
   exists pre h post body,
     let node := toVariablesEntity (mkArgs h) body in
     refsToFetch ctx = pre ++ h :: post
     /\ h <> 0
     /\ variable c = Some node
     /\ forall r, In r (refsToFetch c) ->
        ~ In r (selectReferences (variables session))
        /\ r <> h
        /\ ~ In r pre
        /\ exists v, In v (entityVariables node)
                     /\ variablesReference v = r
                     /\ ~ In (IdStr (value v)) (ids (variables session)))
  /\ (forall vs w', r = Fulfilled vs w' ->
      forall h, h <> 0 ->
      (count_occ Z.eq_dec (refsToFetch ctx) h
       <= count_occ Z.eq_dec (requested evs) h)%nat).
Proof.
  intros r evs session.
  pose proof (strategy_run maxDepth ctx currentDepth w) as Hr.
  cbn zeta in Hr. fold r evs in Hr. unfold FetchRun in Hr.
  split.
  - intros c md Hin.
    destruct (LoopRun_own_calls _ _ _ _ _ _ _ _ _ _ Hr c md Hin)
      as (pre & h & post & body & E & Hh & Hc).
    exists pre, h, post, body. cbn zeta.
    split; [exact E|]. split; [exact Hh|]. split; [now subst c|].
    intros x Hx. subst c. cbn in Hx.
    apply childRefsToFetch_In in Hx.
    destruct Hx as (v & Hv & Er & Hpos & Hnot & _ & Hid).
    rewrite Er in *.
    rewrite !in_app_iff in Hnot. cbn in Hnot.
    repeat split.
    + tauto.
    + intros ->. tauto.
    + intros Hp. apply Hnot. right. left.
      apply filter_In. split; auto.
      unfold nonZero. apply negb_true_iff, Z.eqb_neq. lia.
    + exists v. auto.
  - intros vs w' E h Hh.
    exact (LoopRun_requests_each _ _ _ _ _ _ _ _ _ _ Hr _ _ E h Hh).
Qed.

(** C2. The list a fulfilled call returns is the pre-order listing of its
    call tree: one tree per non-zero handle of [refsToFetch], in order, each
    node followed by the nodes of the recursive call made for it before the
    node of the next handle; it holds one node per answered request, in the
    order of the requests.  For [refsToFetch = [A; B]] the list is the node
    of A, A's descendants, the node of B, B's descendants, hence
    [nodeA :: nodeB :: B's descendants] when A has no eligible children. *)
Theorem result_is_depth_first ctx maxDepth currentDepth w vs w' :
  defaultFetchVariablesStrategy ctx maxDepth currentDepth w
    = Fulfilled vs w' ->
  let session := selectSessionState (store w) (sessionId ctx) in
  let refsFetched := selectReferences (variables session) in
  let sessionIds := ids (variables session) in
  exists ts,
    Forest maxDepth ctx sessionIds currentDepth refsFetched
           (refsToFetch ctx) ts
    /\ vs = flat_map preorder ts
    /\ map rootRef ts = filter nonZero (refsToFetch ctx)
    /\ vs = resolved (performed w (Fulfilled vs w'))
    /\ (forall A B, refsToFetch ctx = [A; B] -> A <> 0 -> B <> 0 ->
        exists bodyA bodyB kidsA kidsB,
          let nodeA := toVariablesEntity (mkArgs A) bodyA in
          let nodeB := toVariablesEntity (mkArgs B) bodyB in
          ts = [Node A nodeA kidsA; Node B nodeB kidsB]
          /\ vs = nodeA :: flat_map preorder kidsA
                  ++ nodeB :: flat_map preorder kidsB
          /\ (childRefsToFetch ctx (refsFetched ++ [A]) sessionIds nodeA = []
              -> vs = nodeA :: nodeB :: flat_map preorder kidsB)).
Proof.
  intros E session refsFetched sessionIds.
  pose proof (strategy_run maxDepth ctx currentDepth w) as Hr.
  cbn zeta in Hr. rewrite E in Hr. unfold FetchRun in Hr.
  fold session refsFetched in Hr.
  destruct (LoopRun_forest _ _ _ _ _ _ _ _ _ _ Hr _ _ eq_refl)
    as (ts & Hf & Ev).
  fold sessionIds in Hf. cbn in Ev.
  exists ts. split; [exact Hf|]. split; [exact Ev|].
  split; [now apply Forest_roots in Hf|].
  split; [exact (LoopRun_values _ _ _ _ _ _ _ _ _ _ Hr _ _ eq_refl)|].
  intros A B Erefs HA HB. rewrite Erefs in Hf.
  destruct (Forest_pair _ _ _ _ _ _ _ _ Hf HA HB)
    as (bodyA & bodyB & kidsA & kidsB & Ets & Hnone).
  exists bodyA, bodyB, kidsA, kidsB. cbn zeta.
  split; [exact Ets|].
  assert (Evs : vs = toVariablesEntity (mkArgs A) bodyA
                     :: flat_map preorder kidsA
                     ++ toVariablesEntity (mkArgs B) bodyB
                     :: flat_map preorder kidsB).
  { rewrite Ev, Ets. cbn. now rewrite app_nil_r. }
  split; [exact Evs|].
  intros Hno. rewrite (Hnone Hno) in Evs. exact Evs.
Qed.


(** C4. When [currentDepth >= maxDepth] the call is the fetch without
    recursion: it makes no recursive call, requests the non-zero handles in
    order and dispatches the node of every answered request.  It is
    rejected only by a rejected request, which is then its last effect; if
    every request it sent was answered it is fulfilled, and a fulfilled
    call has requested every non-zero handle of [refsToFetch] and returns
    exactly the nodes it dispatched, one per such handle.  With
    [maxDepth = 0] this is every top-level call, whatever the children in
    the responses. *)
Theorem depth_bound_stops_recursion ctx maxDepth currentDepth w :
  maxDepth <= currentDepth ->
  let r := defaultFetchVariablesStrategy ctx maxDepth currentDepth w in
  let evs := performed w r in
  recursions evs = []
  /\ published evs = resolved evs
  /\ (exists todo, filter nonZero (refsToFetch ctx) = requested evs ++ todo)
  /\ (forall vs w', r = Fulfilled vs w' ->
      requested evs = filter nonZero (refsToFetch ctx)
      /\ vs = resolved evs
      /\ vs = published evs
      /\ List.length vs = List.length (filter nonZero (refsToFetch ctx)))
  /\ r = fetchEach (sessionId ctx) (refsToFetch ctx) [] w
  /\ (existsb isFailure evs = false -> exists vs w', r = Fulfilled vs w')
  /\ (forall w', r = Rejected w' ->
      exists pre sid a,
        evs = pre ++ [EvRequest sid a None]
        /\ existsb isFailure pre = false).
Proof.
  intros Hd r evs.
  pose proof (strategy_run maxDepth ctx currentDepth w) as Hr.
  cbn zeta in Hr. fold r evs in Hr. unfold FetchRun in Hr.
  pose proof (LoopRun_shape _ _ _ _ _ _ _ _ _ _ Hr) as Hsh.
  pose proof (Shape_published _ Hsh) as Hpub.
  pose proof (LoopRun_outcome _ _ _ _ _ _ _ _ _ _ Hr) as Ho.
  destruct (LoopRun_cutoff _ _ _ _ _ _ _ _ _ _ Hr Hd)
    as (Hrec & todo & Etodo & Hdone).
  split; [exact Hrec|]. split; [exact Hpub|].
  split; [exists todo; exact Etodo|].
  split; [|split; [|split]].
  - intros vs w' E.
    pose proof (LoopRun_values _ _ _ _ _ _ _ _ _ _ Hr _ _ E) as Ev.
    cbn in Ev. rewrite E in Ho.
    rewrite (Hdone _ _ E), app_nil_r in Etodo.
    repeat split; auto; try congruence.
    rewrite Ev, Etodo. now apply answered_count.
  - unfold r, defaultFetchVariablesStrategy. cbn [fetchFuel].
    unfold fetchBody, bind, getState.
    now apply forOf_at_bound_is_fetchEach.
  - intros Hnone. destruct r as [vs w'|w'|]; [eauto| |contradiction].
    destruct Ho as (pre & sid & a & E & _).
    rewrite E, existsb_app in Hnone. cbn in Hnone.
    rewrite orb_true_r in Hnone. discriminate.
  - intros w' E. rewrite E in Ho. exact Ho.
Qed.

(** C5. If a request of the call is rejected, the call is rejected: it has
    no return value, the rejected request is the last thing it did, so
    nothing is dispatched for the failed handle and no later handle is
    processed at any level.  The store it leaves is the store it started
    with after the dispatches made before the failure, and each node
    resolved before the failure was dispatched. *)
Theorem failed_request_aborts_call ctx maxDepth currentDepth w sid a :
  let r := defaultFetchVariablesStrategy ctx maxDepth currentDepth w in
  let evs := performed w r in
  In (EvRequest sid a None) evs ->
  exists w' pre,
    r = Rejected w'
    /\ evs = pre ++ [EvRequest sid a None]
    /\ existsb isFailure pre = false
    /\ store w' = replay pre (store w)
    /\ published pre = resolved pre
    /\ published evs = published pre.
Proof.
  intros r evs Hin.
  pose proof (strategy_run maxDepth ctx currentDepth w) as Hr.
  cbn zeta in Hr. fold r evs in Hr. unfold FetchRun in Hr.
  pose proof (LoopRun_outcome _ _ _ _ _ _ _ _ _ _ Hr) as Ho.
  pose proof (LoopRun_shape _ _ _ _ _ _ _ _ _ _ Hr) as Hsh.
  pose proof (Shape_published _ Hsh) as Hpub.
  pose proof (LoopRun_store _ _ _ _ _ _ _ _ _ _ Hr) as Hst.
  destruct r as [vs' w'|w'|]; [|clear Hr|contradiction].
  - assert (existsb isFailure evs = true); [|congruence].
    apply existsb_exists. exists (EvRequest sid a None). auto.
  - destruct Ho as (pre & sid' & a' & E & Hp).
    rewrite E in Hin.
    destruct (failure_is_last _ _ _ _ _ Hp Hin) as [Es Ea]. subst sid' a'.
    exists w', pre.
    rewrite E, published_app, resolved_app in Hpub. cbn in Hpub.
    rewrite !app_nil_r in Hpub.
    repeat split; auto.
    + rewrite (Hst w' eq_refl), E, replay_app. reflexivity.
    + rewrite E, published_app. cbn. now rewrite app_nil_r.
Qed.

(** C6. Handle 0 is never sent: no request of a call is for 0, every node
    that is dispatched comes from an answered request for a non-zero
    handle, a fulfilled call returns as many nodes as it sent requests,
    and no list of handles passed to a recursive call contains 0, its
    handles being greater than 0. *)
Theorem zero_handle_never_requested ctx maxDepth currentDepth w :
  let r := defaultFetchVariablesStrategy ctx maxDepth currentDepth w in
  let evs := performed w r in
  ~ In 0 (requested evs)
  /\ (forall sid vs, In (EvDispatch sid vs) evs ->
      exists a body,
        vs = [toVariablesEntity a body] /\ argsReference a <> 0
        /\ In (EvRequest sid a (Some body)) evs)
  /\ (forall vs w', r = Fulfilled vs w' ->
      vs = resolved evs
      /\ List.length vs = List.length (requested evs))
  /\ (forall c md d, In (EvRecurse c md d) evs ->
      Forall (fun h => 0 < h) (refsToFetch c) /\ ~ In 0 (refsToFetch c)).
Proof.
  intros r evs.
  pose proof (strategy_run maxDepth ctx currentDepth w) as Hr.
  cbn zeta in Hr. fold r evs in Hr. unfold FetchRun in Hr.
  pose proof (LoopRun_events _ _ _ _ _ _ _ _ _ _ Hr) as Hev.
  pose proof (LoopRun_shape _ _ _ _ _ _ _ _ _ _ Hr) as Hsh.
  rewrite Forall_forall in Hev.
  split; [|split; [|split]].
  - intros Hin. apply requested_In in Hin.
    destruct Hin as (sid & a & resp & Hin & E).
    apply Hev in Hin. cbn in Hin. tauto.
  - intros sid vs Hin.
    destruct (Shape_dispatch _ Hsh _ _ Hin) as (a & body & E & Hreq).
    exists a, body. repeat split; auto.
    apply Hev in Hreq. cbn in Hreq. tauto.
  - intros vs w' E.
    pose proof (LoopRun_values _ _ _ _ _ _ _ _ _ _ Hr _ _ E) as Ev.
    cbn in Ev. split; [exact Ev|].
    rewrite Ev. apply answered_count.
    pose proof (LoopRun_outcome _ _ _ _ _ _ _ _ _ _ Hr) as Ho.
    now rewrite E in Ho.
  - intros c md d Hin. apply Hev in Hin. cbn in Hin.
    destruct Hin as (_ & _ & Hpos & _).
    split; [exact Hpos|].
    intros Hz. rewrite Forall_forall in Hpos. apply Hpos in Hz. lia.
Qed.

(** C7. In the sequence of side effects of a call, the event right after an
    answered request is the dispatch of its node, so nothing (no request
    for a child, no later sibling) comes between a resolution and its
    publication.  A recursive call is entered right after the request and
    the dispatch of the node it is made for, and everything it does, its
    requests for the children included, comes after that point: a child
    request never precedes the publication of its parent. *)
Theorem node_published_before_children ctx maxDepth currentDepth w :
  let evs :=
    performed w (defaultFetchVariablesStrategy ctx maxDepth currentDepth w) in
  (forall pre sid a body post,
      evs = pre ++ EvRequest sid a (Some body) :: post ->
      exists post', post = EvDispatch sid [toVariablesEntity a body] :: post')
  /\ (forall pre c md d post,
      evs = pre ++ EvRecurse c md d :: post ->
      exists pre' a body,
        pre = pre' ++ [EvRequest (sessionId c) a (Some body);
                       EvDispatch (sessionId c) [toVariablesEntity a body]]
        /\ variable c = Some (toVariablesEntity a body))
  /\ (forall pre c md d post,
      evs = pre ++ EvRecurse c md d :: post ->
      exists w3 rest,
        trace w3 = trace w ++ pre ++ [EvRecurse c md d]
        /\ store w3 = replay pre (store w)
        /\ post = performed w3 (defaultFetchVariablesStrategy c md d w3)
                  ++ rest).
Proof.
  intros evs.
  pose proof (strategy_run maxDepth ctx currentDepth w) as Hr.
  cbn zeta in Hr. fold evs in Hr. unfold FetchRun in Hr.
  pose proof (LoopRun_shape _ _ _ _ _ _ _ _ _ _ Hr) as Hsh.
  split; [|split].
  - apply Shape_after_request. exact Hsh.
  - apply Shape_before_call. exact Hsh.
  - exact (LoopRun_call_segment _ _ _ _ _ _ _ _ _ _ Hr).
Qed.

(** What the derived contexts are, in general (the run of C8 is one
    instance).  The context of a recursive call an invocation makes is
    [ctx] with [refsToFetch] replaced by the eligible children of the node
    dispatched just before the call and [variable] set to that node;
    [sessionId], [frame], [scope] and [force] are those of [ctx], at every
    depth below the call.  So every derived context has [variable] set, and
    [scope] too whenever [ctx.scope] is set: a fetch rooted at a scope
    derives only contexts in which both are set. *)
Theorem derived_context_copies_ctx ctx maxDepth currentDepth w :
  let evs :=
    performed w (defaultFetchVariablesStrategy ctx maxDepth currentDepth w) in
  let session := selectSessionState (store w) (sessionId ctx) in
  (forall before c md after,
     evs = before ++ EvRecurse c md (currentDepth + 1) :: after ->
     exists before' a body pre h post,
       let node := toVariablesEntity a body in
       let refsFetched :=
         selectReferences (variables session) ++ filter nonZero pre ++ [h] in
       before = before' ++ [EvRequest (sessionId ctx) a (Some body);
                            EvDispatch (sessionId ctx) [node]]
       /\ refsToFetch ctx = pre ++ h :: post
       /\ c = mkCtx (sessionId ctx) (frame ctx)
                    (childRefsToFetch ctx refsFetched
                                      (ids (variables session)) node)
                    (Some node) (scope ctx) (force ctx))
  /\ (forall c, In c (recursions evs) ->
      sessionId c = sessionId ctx /\ frame c = frame ctx
      /\ scope c = scope ctx /\ force c = force ctx
      /\ variable c <> None)
  /\ (scope ctx = None ->
      forall c, In c (recursions evs) -> parentExclusive c)
  /\ (scope ctx <> None ->
      forall c, In c (recursions evs) -> ~ parentExclusive c).
Proof.
  intros evs session.
  pose proof (strategy_run maxDepth ctx currentDepth w) as Hr.
  cbn zeta in Hr. fold evs in Hr. unfold FetchRun in Hr.
  pose proof (LoopRun_events _ _ _ _ _ _ _ _ _ _ Hr) as Hev.
  pose proof (LoopRun_shape _ _ _ _ _ _ _ _ _ _ Hr) as Hsh.
  rewrite Forall_forall in Hev.
  assert (Hall : forall c, In c (recursions evs) ->
                           sessionId c = sessionId ctx /\ frame c = frame ctx
                           /\ scope c = scope ctx /\ force c = force ctx
                           /\ variable c <> None).
  { intros c Hin. apply recursions_In in Hin. destruct Hin as (md & d & Hin).
    apply Hev in Hin. cbn in Hin. tauto. }
  split; [|split; [|split]].
  - intros before c md after E.
    assert (Hin : In (EvRecurse c md (currentDepth + 1)) evs).
    { rewrite E. apply in_or_app. right. now left. }
    destruct (LoopRun_own_calls _ _ _ _ _ _ _ _ _ _ Hr c md Hin)
      as (pre & h & post & body1 & Erefs & Hh & Hc).
    destruct (Shape_before_call _ Hsh _ _ _ _ _ E)
      as (before' & a & body & Eb & Hv).
    assert (Hs : sessionId c = sessionId ctx) by now subst c.
    assert (Hnode : toVariablesEntity (mkArgs h) body1
                    = toVariablesEntity a body).
    { rewrite Hc in Hv. cbn in Hv. now inversion Hv. }
    exists before', a, body, pre, h, post. cbn zeta.
    rewrite Hs in Eb. rewrite Hnode in Hc.
    split; [exact Eb|]. split; [exact Erefs|exact Hc].
  - exact Hall.
  - intros Hscope c Hin. right.
    destruct (Hall c Hin) as (_ & _ & Hs & _). congruence.
  - intros Hscope c Hin [Hv|Hs].
    + destruct (Hall c Hin) as (_ & _ & _ & _ & Hvar). contradiction.
    + destruct (Hall c Hin) as (_ & _ & Hsc & _). congruence.
Qed.

(** C9. A call whose [refsToFetch] is empty sends no request, dispatches
    nothing and returns the empty list: it is fulfilled with [[]] in the
    world it started in.  The recursive call made for a node without
    eligible children is such a call (its context is
    [childContextArgs ctx [] node]), so it changes nothing and appends
    nothing to [variables]. *)
Theorem empty_refsToFetch_is_noop ctx maxDepth currentDepth w :
  refsToFetch ctx = [] ->
  defaultFetchVariablesStrategy ctx maxDepth currentDepth w = Fulfilled [] w
  /\ performed w (defaultFetchVariablesStrategy ctx maxDepth currentDepth w)
     = []
  /\ (forall parent node (vars : list VariablesEntity),
      defaultFetchVariablesStrategy (childContextArgs parent [] node)
                                    maxDepth currentDepth w
      = Fulfilled [] w
      /\ vars ++ [] = vars).
Proof.
  intros Hrefs.
  assert (Hempty : forall c, refsToFetch c = [] ->
                             defaultFetchVariablesStrategy
                               c maxDepth currentDepth w = Fulfilled [] w).
  { intros c Hc. unfold defaultFetchVariablesStrategy. cbn [fetchFuel].
    unfold fetchBody, bind, getState. now rewrite Hc. }
  split; [now apply Hempty|]. split.
  - rewrite (Hempty ctx Hrefs). unfold performed. cbn. apply skipn_all.
  - intros parent node vars. split; [now apply Hempty|apply app_nil_r].
Qed.

(** C10. In a call that returns, every handle of [refsToFetch] other than
    0, negative ones included, is requested, and the node of the response
    is dispatched and returned; only the handles passed to recursive calls
    are required to be greater than 0. *)
Theorem nonzero_caller_handles_are_fetched ctx maxDepth currentDepth w vs w' :
  defaultFetchVariablesStrategy ctx maxDepth currentDepth w
    = Fulfilled vs w' ->
  let evs := performed w (Fulfilled vs w') in
  (forall h, In h (refsToFetch ctx) -> h <> 0 ->
     exists body,
       let node := toVariablesEntity (mkArgs h) body in
       In (EvRequest (sessionId ctx) (mkArgs h) (Some body)) evs
       /\ In (EvDispatch (sessionId ctx) [node]) evs
       /\ In node vs)
  /\ (forall c md d, In (EvRecurse c md d) evs ->
      Forall (fun h => 0 < h) (refsToFetch c)).
Proof.
  intros E evs.
  pose proof (strategy_run maxDepth ctx currentDepth w) as Hr.
  cbn zeta in Hr. rewrite E in Hr. fold evs in Hr. unfold FetchRun in Hr.
  pose proof (LoopRun_shape _ _ _ _ _ _ _ _ _ _ Hr) as Hsh.
  pose proof (LoopRun_events _ _ _ _ _ _ _ _ _ _ Hr) as Hev.
  pose proof (LoopRun_values _ _ _ _ _ _ _ _ _ _ Hr _ _ eq_refl) as Ev.
  cbn in Ev.
  rewrite Forall_forall in Hev.
  split.
  - intros h Hin Hh.
    destruct (LoopRun_requests_all _ _ _ _ _ _ _ _ _ _ Hr _ _ eq_refl
                                   h Hin Hh) as [body Hb].
    exists body. cbn zeta. repeat split; auto.
    + now apply Shape_request_dispatched.
    + rewrite Ev. apply resolved_In. eauto.
  - intros c md d Hin. apply Hev in Hin. cbn in Hin. tauto.
Qed.

(** ** Further properties of the strategy *)

(** Every recursive call of a run is made while the depth is below the
    bound, one level down. *)
Lemma LoopRun_depths maxDepth ctx d s refs rf vs w evs r :
  LoopRun maxDepth ctx d s refs rf vs w evs r ->
  forall c md d', In (EvRecurse c md d') evs ->
                  md = maxDepth /\ d < d' <= maxDepth.
Proof.
  induction 1; intros c md d' Hin.
  - destruct Hin.
  - eauto.
  - destruct Hin as [E|[]]. discriminate.
  - destruct Hin as [E|[E|Hin]]; try discriminate. eauto.
  - destruct Hin as [E|[E|[E|Hin]]]; try discriminate.
    + inversion E; subst. lia.
    + destruct (IHLoopRun _ _ _ Hin). lia.
  - destruct Hin as [E|[E|[E|Hin]]]; try discriminate.
    + inversion E; subst. lia.
    + apply in_app_or in Hin. destruct Hin as [Hin|Hin].
      * destruct (IHLoopRun1 _ _ _ Hin). lia.
      * eauto.
Qed.

(** X1. Every recursive call of a run is made with [maxDepth] unchanged and
    at a depth greater than [currentDepth] and at most [maxDepth], so calls
    nest at most [maxDepth - currentDepth] deep below a call. *)
Theorem recursion_depth_is_bounded ctx maxDepth currentDepth w c md d :
  In (EvRecurse c md d)
     (performed w (defaultFetchVariablesStrategy ctx maxDepth currentDepth w))
  ->
  md = maxDepth /\ currentDepth < d <= maxDepth.
Proof.
  intros Hin.
  pose proof (strategy_run maxDepth ctx currentDepth w) as Hr.
  cbn zeta in Hr. unfold FetchRun in Hr.
  destruct (LoopRun_depths _ _ _ _ _ _ _ _ _ _ Hr _ _ _ Hin) as [Hmd Hd].
  repeat split; lia.
Qed.

(** X2. A call stays in its session: every request and every dispatch it
    makes, at any depth, carries [ctx.sessionId], and every dispatch hands
    [addVariables] a batch of exactly one node. *)
Theorem effects_stay_in_session ctx maxDepth currentDepth w :
  let evs :=
    performed w (defaultFetchVariablesStrategy ctx maxDepth currentDepth w) in
  (forall sid a resp, In (EvRequest sid a resp) evs -> sid = sessionId ctx)
  /\ (forall sid vs, In (EvDispatch sid vs) evs ->
      sid = sessionId ctx /\ List.length vs = 1%nat).
Proof.
  intros evs.
  pose proof (strategy_run maxDepth ctx currentDepth w) as Hr.
  cbn zeta in Hr. fold evs in Hr. unfold FetchRun in Hr.
  pose proof (LoopRun_events _ _ _ _ _ _ _ _ _ _ Hr) as Hev.
  pose proof (LoopRun_shape _ _ _ _ _ _ _ _ _ _ Hr) as Hsh.
  rewrite Forall_forall in Hev.
  split.
  - intros sid a resp Hin. apply Hev in Hin. cbn in Hin. tauto.
  - intros sid vs Hin. split.
    + apply Hev in Hin. exact Hin.
    + destruct (Shape_dispatch _ Hsh _ _ Hin) as (a & body & E & _).
      now rewrite E.
Qed.

Lemma rejected_count pre sid a :
  existsb isFailure pre = false ->
  List.length (requested (pre ++ [EvRequest sid a None]))
  = S (List.length (resolved (pre ++ [EvRequest sid a None]))).
Proof.
  intros Hp. rewrite requested_app, resolved_app, !length_app.
  rewrite (answered_count _ Hp). cbn. lia.
Qed.

(** X3. Whatever the outcome, the store a call leaves is the store it
    started with after its dispatches, and the nodes it dispatched are the
    nodes of the answered requests, in order.  A fulfilled call returns
    exactly the nodes it dispatched, in the order of the dispatches; a
    rejected call sent one request more than it dispatched nodes. *)
Theorem returned_nodes_are_the_published_nodes ctx maxDepth currentDepth w :
  let r := defaultFetchVariablesStrategy ctx maxDepth currentDepth w in
  let evs := performed w r in
  published evs = resolved evs
  /\ (forall w', settled r = Some w' -> store w' = replay evs (store w))
  /\ (forall vs w', r = Fulfilled vs w' -> vs = published evs)
  /\ (forall w', r = Rejected w' ->
      List.length (requested evs) = S (List.length (published evs))).
Proof.
  intros r evs.
  pose proof (strategy_run maxDepth ctx currentDepth w) as Hr.
  cbn zeta in Hr. fold r evs in Hr. unfold FetchRun in Hr.
  pose proof (LoopRun_shape _ _ _ _ _ _ _ _ _ _ Hr) as Hsh.
  pose proof (Shape_published _ Hsh) as Hpub.
  split; [exact Hpub|]. split; [|split].
  - exact (LoopRun_store _ _ _ _ _ _ _ _ _ _ Hr).
  - intros vs w' E. rewrite Hpub.
    exact (LoopRun_values _ _ _ _ _ _ _ _ _ _ Hr _ _ E).
  - intros w' E.
    pose proof (LoopRun_outcome _ _ _ _ _ _ _ _ _ _ Hr) as Ho.
    rewrite E in Ho. destruct Ho as (pre & sid & a & Ee & Hp).
    rewrite Hpub, Ee. now apply rejected_count.
Qed.

(** The loop reads [ctx] for its session, frame, scope and force flag
    only. *)
Lemma forOf_same_fields self ctx ctx' maxDepth d s :
  sessionId ctx = sessionId ctx' -> frame ctx = frame ctx' ->
  scope ctx = scope ctx' -> force ctx = force ctx' ->
  forall refs rf vs w,
    forOf self ctx maxDepth d s refs rf vs w
    = forOf self ctx' maxDepth d s refs rf vs w.
Proof.
  destruct ctx as [sid fr rs v sc fo], ctx' as [sid' fr' rs' v' sc' fo'].
  cbn. intros -> -> -> -> refs.
  induction refs as [|ref rest IH]; intros rf vs w; [reflexivity|].
  cbn [forOf]. destruct (ref =? 0); [apply IH|].
  unfold bind, request, dispatch, enter, emit. cbn [sessionId].
  destruct (debugRequestAsync sid' (mkArgs ref) (adapter w))
    as [[body|] a']; [|reflexivity].
  destruct (d >=? maxDepth); [apply IH|].
  unfold childRefsToFetch, eligible, childContextArgs.
  cbn [sessionId frame scope force store adapter trace].
  match goal with
  | |- match ?call with _ => _ end = _ => destruct call
  end; [apply IH|reflexivity..].
Qed.

(** X4. [ctx.variable] is never read: two calls whose contexts differ in
    [variable] only have the same outcome, the same effects included; the
    parent recorded in a derived context is always the node just created. *)
Theorem variable_of_ctx_is_ignored ctx v maxDepth currentDepth w :
  defaultFetchVariablesStrategy (withVariable ctx v) maxDepth currentDepth w
  = defaultFetchVariablesStrategy ctx maxDepth currentDepth w.
Proof.
  unfold defaultFetchVariablesStrategy. cbn [fetchFuel].
  unfold fetchBody, bind, getState.
  cbn [withVariable sessionId refsToFetch].
  apply forOf_same_fields; reflexivity.
Qed.

(** The loop passes over the zero entries. *)
Lemma forOf_skips_zeros self ctx maxDepth d s refs :
  forall rf vs w,
    forOf self ctx maxDepth d s (filter nonZero refs) rf vs w
    = forOf self ctx maxDepth d s refs rf vs w.
Proof.
  induction refs as [|ref rest IH]; intros rf vs w; [reflexivity|].
  cbn [filter]. unfold nonZero at 1.
  destruct (ref =? 0) eqn:Ez; cbn [negb].
  - cbn [forOf]. rewrite Ez. apply IH.
  - cbn [forOf]. rewrite Ez.
    unfold bind, request, dispatch, enter, emit.
    destruct (debugRequestAsync (sessionId ctx) (mkArgs ref) (adapter w))
      as [[body|] a']; [|reflexivity].
    destruct (d >=? maxDepth); [apply IH|].
    cbn [store adapter trace].
    match goal with
    | |- match ?call with _ => _ end = _ => destruct call
    end; [apply IH|reflexivity..].
Qed.

(** X5. The zero entries of [refsToFetch] are inert: two handle lists that
    agree once their zeros are dropped give the same outcome, the same
    requests, dispatches and recursive calls included. *)
Theorem zero_entries_are_inert ctx refs maxDepth currentDepth w :
  filter nonZero refs = filter nonZero (refsToFetch ctx) ->
  defaultFetchVariablesStrategy (withRefs ctx refs) maxDepth currentDepth w
  = defaultFetchVariablesStrategy ctx maxDepth currentDepth w.
Proof.
  intros Hsame.
  unfold defaultFetchVariablesStrategy. cbn [fetchFuel].
  unfold fetchBody, bind, getState.
  cbn [withRefs sessionId refsToFetch].
  rewrite (forOf_same_fields _ (withRefs ctx refs) ctx)
    by reflexivity.
  rewrite <- (forOf_skips_zeros _ _ _ _ _ refs).
  rewrite <- (forOf_skips_zeros _ _ _ _ _ (refsToFetch ctx)).
  now rewrite Hsame.
Qed.

(** Where a requested handle comes from: the list the loop was given, or a
    child descriptor of a node the run resolved. *)
Lemma LoopRun_provenance maxDepth ctx d s refs rf vs w evs r :
  LoopRun maxDepth ctx d s refs rf vs w evs r ->
  forall h, In h (requested evs) ->
  In h refs
  \/ (0 < h
      /\ exists node dv,
          In node (resolved evs)
          /\ In dv (entityVariables node)
          /\ variablesReference dv = h).
Proof.
  induction 1; intros h Hin.
  - destruct Hin.
  - destruct (IHLoopRun h Hin) as [Hl|Hc]; [left; now right|now right].
  - destruct Hin as [E|[]]. left. now left.
  - change (req :: pub :: evs) with ([req; pub] ++ evs) in *.
    rewrite requested_app in Hin. apply in_app_or in Hin.
    destruct Hin as [[E|[]]|Hin]; [left; now left|].
    destruct (IHLoopRun h Hin) as [Hl|(Hpos & node' & dv & Hn & Hdv & E)].
    + left. now right.
    + right. split; [exact Hpos|]. exists node', dv.
      rewrite resolved_app. split; [|now split].
      apply in_or_app. now right.
  - change (req :: pub :: call :: evsC)
      with ([req; pub; call] ++ evsC) in *.
    rewrite requested_app in Hin. apply in_app_or in Hin.
    destruct Hin as [[E|[]]|Hin]; [left; now left|]. right.
    destruct (IHLoopRun h Hin) as [Hl|(Hpos & node' & dv & Hn & Hdv & E)].
    + apply childRefsToFetch_In in Hl.
      destruct Hl as (dv & Hdv & E & Hsel).
      split; [rewrite <- E; apply Hsel|]. exists node, dv.
      rewrite resolved_app. split; [|now split].
      apply in_or_app. left. cbn. now left.
    + split; [exact Hpos|]. exists node', dv.
      rewrite resolved_app. split; [|now split].
      apply in_or_app. now right.
  - change (req :: pub :: call :: evsC ++ evs)
      with ([req; pub; call] ++ evsC ++ evs) in *.
    rewrite !requested_app in Hin.
    apply in_app_or in Hin. destruct Hin as [[E|[]]|Hin]; [left; now left|].
    apply in_app_or in Hin. destruct Hin as [Hin|Hin].
    + right.
      destruct (IHLoopRun1 h Hin)
        as [Hl|(Hpos & node' & dv & Hn & Hdv & E)].
      * apply childRefsToFetch_In in Hl.
        destruct Hl as (dv & Hdv & E & Hsel).
        split; [rewrite <- E; apply Hsel|]. exists node, dv.
        rewrite resolved_app. split; [|now split].
        apply in_or_app. left. cbn. now left.
      * split; [exact Hpos|]. exists node', dv.
        rewrite !resolved_app. split; [|now split].
        apply in_or_app. right. apply in_or_app. now left.
    + destruct (IHLoopRun2 h Hin)
        as [Hl|(Hpos & node' & dv & Hn & Hdv & E)].
      * left. now right.
      * right. split; [exact Hpos|]. exists node', dv.
        rewrite !resolved_app. split; [|now split].
        apply in_or_app. right. apply in_or_app. now right.
Qed.

(** X6. The fetcher requests no handle of its own making: every handle it
    requests is an entry of [ctx.refsToFetch], or it is greater than 0 and
    is the [variablesReference] of a child descriptor of a node resolved in
    the same call. *)
Theorem requested_handles_have_a_source ctx maxDepth currentDepth w h :
  let evs :=
    performed w (defaultFetchVariablesStrategy ctx maxDepth currentDepth w) in
  In h (requested evs) ->
  In h (refsToFetch ctx)
  \/ (0 < h
      /\ exists node dv,
          In node (resolved evs)
          /\ In dv (entityVariables node)
          /\ variablesReference dv = h).
Proof.
  intros evs Hin.
  pose proof (strategy_run maxDepth ctx currentDepth w) as Hr.
  cbn zeta in Hr. fold evs in Hr. unfold FetchRun in Hr.
  exact (LoopRun_provenance _ _ _ _ _ _ _ _ _ _ Hr h Hin).
Qed.

Lemma includesId_numeric sids v :
  forallb isNumericId sids = true -> includesId sids v = false.
Proof.
  intros Hnum. apply not_true_iff_false. intros Hin.
  apply includesId_In in Hin.
  rewrite forallb_forall in Hnum. apply Hnum in Hin. discriminate.
Qed.

(** X7. When every id of the session is a number, as with the default ids
    (the [variablesReference] numbers), the test of the child's [value]
    against [session.variables.ids] excludes nothing: [value] is a string
    and [includes] finds no number equal to it.  The children selected are
    those selected with no ids at all. *)
Theorem numeric_ids_exclude_nothing ctx refsFetched sessionIds node :
  forallb isNumericId sessionIds = true ->
  childRefsToFetch ctx refsFetched sessionIds node
  = childRefsToFetch ctx refsFetched [] node.
Proof.
  intros Hnum. unfold childRefsToFetch. f_equal.
  apply filter_ext. intros v. unfold eligible.
  now rewrite (includesId_numeric _ _ Hnum).
Qed.

(** X8. The filter is monotone in each of its inputs: a child handle
    selected without [force] is selected with it, and a handle selected
    against some [refsFetched] and ids is selected against any smaller
    ones.  Forcing never hides a child; knowing more never adds one. *)
Theorem filter_is_monotone ctx ctx' refsFetched refsFetched'
        sessionIds sessionIds' node :
  (truthy (force ctx) = true -> truthy (force ctx') = true) ->
  incl refsFetched' refsFetched ->
  incl sessionIds' sessionIds ->
  incl (childRefsToFetch ctx refsFetched sessionIds node)
       (childRefsToFetch ctx' refsFetched' sessionIds' node).
Proof.
  intros Hforce Hrf Hids r Hin.
  apply childRefsToFetch_In in Hin.
  destruct Hin as (v & Hv & E & Hpos & Hnot & Hlazy & Hid).
  apply childRefsToFetch_In. exists v. split; [exact Hv|].
  split; [exact E|]. repeat split.
  - exact Hpos.
  - intros Hin. apply Hnot. now apply Hrf.
  - destruct Hlazy as [Hf|Hl]; [left|now right].
    apply truthy_true. apply Hforce. now apply truthy_true.
  - intros Hin. apply Hid. now apply Hids.
Qed.

(** At the depth bound the loop reads neither the session nor
    [refsFetched], and the array it was given comes back as a prefix of
    the result. *)
Lemma forOf_cutoff_from_empty self ctx maxDepth d :
  maxDepth <= d ->
  forall refs s s' rf rf' vs w,
    forOf self ctx maxDepth d s refs rf vs w
    = match forOf self ctx maxDepth d s' refs rf' [] w with
      | Fulfilled vs' w' => Fulfilled (vs ++ vs') w'
      | Rejected w' => Rejected w'
      | OutOfFuel => OutOfFuel
      end.
Proof.
  intros Hd refs.
  assert (Hge : (d >=? maxDepth) = true) by now apply Z.geb_le.
  induction refs as [|ref rest IH]; intros s s' rf rf' vs w.
  - cbn. unfold ret. now rewrite app_nil_r.
  - cbn [forOf]. destruct (ref =? 0); [apply IH|].
    unfold bind, request, dispatch.
    destruct (debugRequestAsync (sessionId ctx) (mkArgs ref) (adapter w))
      as [[body|] a']; [|reflexivity].
    rewrite Hge. cbn [store adapter trace].
    rewrite (IH s s' (rf ++ [ref]) (rf' ++ [ref]) (vs ++ _)).
    rewrite (IH s' s' (rf' ++ [ref]) (rf' ++ [ref]) ([] ++ _)).
    match goal with
    | |- context [forOf ?f ?c ?m ?dd ?ss ?rs ?r0 [] ?ww] =>
      destruct (forOf f c m dd ss rs r0 [] ww)
    end; try reflexivity.
    cbn. now rewrite <- app_assoc.
Qed.

Lemma forOf_cutoff_app self ctx maxDepth d :
  maxDepth <= d ->
  forall r1 r2 s rf vs w,
    forOf self ctx maxDepth d s (r1 ++ r2) rf vs w
    = match forOf self ctx maxDepth d s r1 rf vs w with
      | Fulfilled vs1 w1 => forOf self ctx maxDepth d s r2 rf vs1 w1
      | Rejected w1 => Rejected w1
      | OutOfFuel => OutOfFuel
      end.
Proof.
  intros Hd r1 r2.
  assert (Hge : (d >=? maxDepth) = true) by now apply Z.geb_le.
  induction r1 as [|ref rest IH]; intros s rf vs w.
  - reflexivity.
  - cbn [app forOf]. destruct (ref =? 0); [apply IH|].
    unfold bind, request, dispatch.
    destruct (debugRequestAsync (sessionId ctx) (mkArgs ref) (adapter w))
      as [[body|] a']; [|reflexivity].
    rewrite Hge. cbn [store adapter trace].
    rewrite IH.
    match goal with
    | |- match ?run with _ => _ end = _ => destruct run
    end; try reflexivity.
    rewrite (forOf_cutoff_from_empty self ctx maxDepth d Hd r2
                                     s s (rf ++ [ref]) rf).
    now rewrite (forOf_cutoff_from_empty self ctx maxDepth d Hd r2
                                         s s rf rf a).
Qed.

(** X9. At the depth bound a batch can be split: with
    [currentDepth >= maxDepth], fetching [r1 ++ r2] has the outcome of
    fetching [r1] and then [r2], the second call made in the world the
    first one left and the two results concatenated; if the first call is
    rejected the second is not made. *)
Theorem batch_splits_at_depth_bound ctx r1 r2 maxDepth currentDepth w :
  maxDepth <= currentDepth ->
  defaultFetchVariablesStrategy (withRefs ctx (r1 ++ r2))
                                maxDepth currentDepth w
  = thenFetch
      (defaultFetchVariablesStrategy (withRefs ctx r1) maxDepth currentDepth)
      (defaultFetchVariablesStrategy (withRefs ctx r2) maxDepth currentDepth)
      w.
Proof.
  intros Hd.
  unfold thenFetch, defaultFetchVariablesStrategy. cbn [fetchFuel].
  unfold fetchBody, bind, getState, ret.
  cbn [withRefs sessionId refsToFetch].
  rewrite (forOf_same_fields _ (withRefs ctx (r1 ++ r2)) ctx)
    by reflexivity.
  rewrite (forOf_same_fields _ (withRefs ctx r1) ctx) by reflexivity.
  rewrite (forOf_cutoff_app _ _ _ _ Hd).
  match goal with
  | |- match ?run with _ => _ end = _ => destruct run as [vs1 w1|w1|]
  end; try reflexivity.
  rewrite (forOf_same_fields _ (withRefs ctx r2) ctx) by reflexivity.
  apply forOf_cutoff_from_empty. exact Hd.
Qed.

(** ** With a store that keeps its references *)

Lemma replay_keeps_references evs :
  storeKeepsReferences ->
  forall st sid r,
    In r (sessionReferences st sid) ->
    In r (sessionReferences (replay evs st) sid).
Proof.
  intros Hkeep.
  induction evs as [|e evs IH]; intros st sid r Hin; [exact Hin|].
  cbn. apply IH. destruct e as [| sid' vs |]; auto.
Qed.

(** A handle known to the invocation, in its array and in the store, is
    passed to no recursive call below it. *)
Lemma LoopRun_known maxDepth ctx d s refs rf vs w evs r :
  storeKeepsReferences ->
  LoopRun maxDepth ctx d s refs rf vs w evs r ->
  forall K,
    incl K rf ->
    incl K (sessionReferences (store w) (sessionId ctx)) ->
    forall c md d', In (EvRecurse c md d') evs ->
    forall x, In x (refsToFetch c) -> ~ In x K.
Proof.
  intros Hkeep.
  induction 1; intros K Hrf Hst c md d' Hin x Hx.
  - destruct Hin.
  - eauto.
  - destruct Hin as [E|[]]. discriminate.
  - destruct Hin as [E|[E|Hin]]; try discriminate.
    eapply (IHLoopRun K); eauto.
    + now apply incl_appl.
    + intros k Hk. cbn [store]. apply Hkeep. now apply Hst.
  - destruct Hin as [E|[E|[E|Hin]]]; try discriminate.
    + inversion E; subst c md d'. cbn in Hx.
      apply childRefsToFetch_In in Hx.
      destruct Hx as (v & _ & Ev & _ & Hnot & _). rewrite Ev in Hnot.
      intros HK. apply Hnot. apply in_or_app. left. now apply Hrf.
    + eapply (IHLoopRun K); eauto.
      * intros k Hk. cbn [store sessionId childContextArgs].
        apply Hkeep. now apply Hst.
      * intros k Hk. cbn [store sessionId childContextArgs].
        apply Hkeep. now apply Hst.
  - destruct Hin as [E|[E|[E|Hin]]]; try discriminate.
    + inversion E; subst c md d'. cbn in Hx.
      apply childRefsToFetch_In in Hx.
      destruct Hx as (v & _ & Ev & _ & Hnot & _). rewrite Ev in Hnot.
      intros HK. apply Hnot. apply in_or_app. left. now apply Hrf.
    + apply in_app_or in Hin. destruct Hin as [Hin|Hin].
      * eapply (IHLoopRun1 K); eauto.
        -- intros k Hk. cbn [store sessionId childContextArgs].
           apply Hkeep. now apply Hst.
        -- intros k Hk. cbn [store sessionId childContextArgs].
           apply Hkeep. now apply Hst.
      * eapply (IHLoopRun2 K); eauto.
        -- now apply incl_appl.
        -- intros k Hk.
           match goal with
           | HC : LoopRun _ _ (d + 1) _ _ _ _ _ _ _ |- _ =>
             rewrite (LoopRun_store _ _ _ _ _ _ _ _ _ _ HC w4 eq_refl)
           end.
           apply replay_keeps_references; [exact Hkeep|].
           cbn [store sessionId childContextArgs].
           apply Hkeep. now apply Hst.
Qed.

(** A requested handle was given to the loop or to a recursive call. *)
Lemma LoopRun_request_origin maxDepth ctx d s refs rf vs w evs r :
  LoopRun maxDepth ctx d s refs rf vs w evs r ->
  forall h, In h (requested evs) ->
  In h refs
  \/ exists c md d', In (EvRecurse c md d') evs /\ In h (refsToFetch c).
Proof.
  induction 1; intros h Hin.
  - destruct Hin.
  - destruct (IHLoopRun h Hin) as [Hl|Hc]; [left; now right|now right].
  - destruct Hin as [E|[]]. left. now left.
  - change (req :: pub :: evs) with ([req; pub] ++ evs) in *.
    rewrite requested_app in Hin. apply in_app_or in Hin.
    destruct Hin as [[E|[]]|Hin]; [left; now left|].
    destruct (IHLoopRun h Hin) as [Hl|(c & md & d' & Hc & Hh)].
    + left. now right.
    + right. exists c, md, d'. split; [|exact Hh].
      apply in_or_app. now right.
  - change (req :: pub :: call :: evsC)
      with ([req; pub; call] ++ evsC) in *.
    rewrite requested_app in Hin. apply in_app_or in Hin.
    destruct Hin as [[E|[]]|Hin]; [left; now left|]. right.
    destruct (IHLoopRun h Hin) as [Hl|(c & md & d' & Hc & Hh)].
    + exists childCtx, maxDepth, (d + 1). split; [|exact Hl].
      apply in_or_app. left. cbn. auto.
    + exists c, md, d'. split; [|exact Hh]. apply in_or_app. now right.
  - change (req :: pub :: call :: evsC ++ evs)
      with ([req; pub; call] ++ evsC ++ evs) in *.
    rewrite !requested_app in Hin.
    apply in_app_or in Hin. destruct Hin as [[E|[]]|Hin]; [left; now left|].
    apply in_app_or in Hin. destruct Hin as [Hin|Hin].
    + right.
      destruct (IHLoopRun1 h Hin) as [Hl|(c & md & d' & Hc & Hh)].
      * exists childCtx, maxDepth, (d + 1). split; [|exact Hl].
        apply in_or_app. left. cbn. auto.
      * exists c, md, d'. split; [|exact Hh].
        apply in_or_app. right. apply in_or_app. now left.
    + destruct (IHLoopRun2 h Hin) as [Hl|(c & md & d' & Hc & Hh)].
      * left. now right.
      * right. exists c, md, d'. split; [|exact Hh].
        apply in_or_app. right. apply in_or_app. now right.
Qed.

(** X10. With a store that never forgets a reference, a handle the store
    already reported for the session when the call started is requested
    only if the caller put it in [refsToFetch]: no recursive call, at any
    depth, requests it. *)
Theorem known_handles_are_not_refetched ctx maxDepth currentDepth w h :
  storeKeepsReferences ->
  In h (sessionReferences (store w) (sessionId ctx)) ->
  ~ In h (refsToFetch ctx) ->
  ~ In h (requested
            (performed w
               (defaultFetchVariablesStrategy ctx maxDepth currentDepth w))).
Proof.
  intros Hkeep Hknown Hnot Hreq.
  pose proof (strategy_run maxDepth ctx currentDepth w) as Hr.
  cbn zeta in Hr. unfold FetchRun in Hr.
  destruct (LoopRun_request_origin _ _ _ _ _ _ _ _ _ _ Hr h Hreq)
    as [Hl|(c & md & d' & Hc & Hh)]; [now apply Hnot|].
  apply (LoopRun_known _ _ _ _ _ _ _ _ _ _ Hkeep Hr [h]) with (x := h)
    in Hc; auto.
  - apply Hc. now left.
  - intros k [<-|[]]. exact Hknown.
  - intros k [<-|[]]. exact Hknown.
Qed.

Lemma replay_keeps_invariant Inv evs :
  storeReportsDispatched Inv ->
  forall st, Inv st -> Inv (replay evs st).
Proof.
  intros [Hinv _].
  induction evs as [|e evs IH]; intros st Hst; [exact Hst|].
  cbn. apply IH. destruct e as [| sid vs |]; auto.
Qed.

(** The call tree of a fulfilled loop whose handles are off [path], when
    [path] is known to the loop's array and to the store. *)
Lemma LoopRun_path_free Inv maxDepth ctx d s refs rf vs w evs r :
  storeKeepsReferences ->
  storeReportsDispatched Inv ->
  LoopRun maxDepth ctx d s refs rf vs w evs r ->
  forall path,
    Inv (store w) ->
    incl path rf ->
    incl path (sessionReferences (store w) (sessionId ctx)) ->
    Forall (fun x => ~ In x path) refs ->
    forall vs' w', r = Fulfilled vs' w' ->
    exists ts,
      Forest maxDepth ctx (ids (variables s)) d rf refs ts
      /\ vs' = vs ++ flat_map preorder ts
      /\ requested evs = flat_map preorderRefs ts
      /\ Forall (PathFree path) ts.
Proof.
  intros Hkeep Hrep.
  induction 1; intros path Hinv Hrf Hst Hoff vs' w' E; try discriminate.
  - inversion E; subst. exists [].
    split; [constructor|]. split; [|split; [reflexivity|constructor]].
    cbn. now rewrite app_nil_r.
  - destruct (IHLoopRun path Hinv Hrf Hst (Forall_inv_tail Hoff) _ _ E)
      as (ts & Hf & Ev & Hq & Hp).
    exists ts. repeat split; auto. now constructor.
  - pose proof (Forall_inv Hoff) as Hx. cbn beta in Hx.
    pose proof (Forall_inv_tail Hoff) as Hl.
    destruct (IHLoopRun path) with (vs' := vs') (w' := w')
      as (ts & Hf & Ev & Hq & Hp); auto.
    + apply (proj1 Hrep). exact Hinv.
    + now apply incl_appl.
    + intros k Hk. cbn [store]. apply Hkeep. now apply Hst.
    + exists (Node ref node [] :: ts).
      split; [now apply Forest_leaf|]. split; [|split].
      * rewrite Ev. cbn. now rewrite <- app_assoc.
      * change (req :: pub :: evs) with ([req; pub] ++ evs).
        rewrite requested_app, Hq. reflexivity.
      * constructor; [|exact Hp]. constructor; [exact Hx|constructor].
  - pose proof (Forall_inv Hoff) as Hx. cbn beta in Hx.
    pose proof (Forall_inv_tail Hoff) as Hl.
    assert (Hinv3 : Inv (store w3)) by (apply (proj1 Hrep); exact Hinv).
    assert (Hkids : exists kids,
               Forest maxDepth childCtx
                      (ids (variables
                              (selectSessionState (store w3)
                                                  (sessionId childCtx))))
                      (d + 1)
                      (selectReferences
                         (variables
                            (selectSessionState (store w3)
                                                (sessionId childCtx))))
                      childRefs kids
               /\ childVars = [] ++ flat_map preorder kids
               /\ requested evsC = flat_map preorderRefs kids
               /\ Forall (PathFree (ref :: path)) kids).
    { apply (IHLoopRun1 (ref :: path)) with (w' := w4); auto.
      - intros k [<-|Hk].
        + exact (proj2 Hrep (store w) (sessionId ctx) (mkArgs ref) body
                       Hinv).
        + apply Hkeep. now apply Hst.
      - intros k [<-|Hk].
        + exact (proj2 Hrep (store w) (sessionId ctx) (mkArgs ref) body
                       Hinv).
        + apply Hkeep. now apply Hst.
      - apply Forall_forall. intros k Hk.
        apply childRefsToFetch_In in Hk.
        destruct Hk as (v & _ & Ev & _ & Hnot & _). rewrite Ev in Hnot.
        intros [<-|Hp]; apply Hnot; apply in_or_app.
        + right. now left.
        + left. now apply Hrf. }
    destruct Hkids as (kids & Hk & Ek & Hqk & Hpk).
    match goal with
    | HC : LoopRun _ _ (d + 1) _ _ _ _ _ _ _ |- _ =>
      pose proof (LoopRun_store _ _ _ _ _ _ _ _ _ _ HC w4 eq_refl) as Hst4
    end.
    destruct (IHLoopRun2 path) with (vs' := vs') (w' := w')
      as (ts & Hf & Ev & Hq & Hp); auto.
    + rewrite Hst4. now apply replay_keeps_invariant.
    + now apply incl_appl.
    + intros k Hk'. rewrite Hst4.
      apply replay_keeps_references; [exact Hkeep|].
      apply Hkeep. now apply Hst.
    + exists (Node ref node kids :: ts).
      split; [eapply Forest_node; eauto|]. split; [|split].
      * rewrite Ev, Ek. cbn. now rewrite <- !app_assoc.
      * change (req :: pub :: call :: evsC ++ evs)
          with ([req; pub; call] ++ evsC ++ evs).
        rewrite !requested_app, Hq, Hqk. subst req pub call. reflexivity.
      * constructor; [|exact Hp]. constructor; [exact Hx|exact Hpk].
Qed.

(** X11. With a store that keeps its references and reports the handle of
    every node dispatched to it, no handle repeats along a chain of nested
    calls.  A fulfilled call has a call tree, as [Forest] describes it
    (every tree the node of a request for its handle, its children the
    trees of the recursive call made for that node), whose nodes in
    pre-order are the result and whose handles in pre-order are the
    requests sent; in that tree a node never has the handle of one of its
    ancestors.  A cycle in the variable graph is followed at most up to
    the node that closes it. *)
Theorem nested_calls_repeat_no_handle Inv ctx maxDepth currentDepth w vs w' :
  storeKeepsReferences ->
  storeReportsDispatched Inv ->
  Inv (store w) ->
  defaultFetchVariablesStrategy ctx maxDepth currentDepth w
    = Fulfilled vs w' ->
  let session := selectSessionState (store w) (sessionId ctx) in
  exists ts,
    Forest maxDepth ctx (ids (variables session)) currentDepth
           (selectReferences (variables session)) (refsToFetch ctx) ts
    /\ vs = flat_map preorder ts
    /\ requested (performed w (Fulfilled vs w')) = flat_map preorderRefs ts
    /\ map rootRef ts = filter nonZero (refsToFetch ctx)
    /\ Forall (PathFree []) ts.
Proof.
  intros Hkeep Hrep Hinv E session.
  pose proof (strategy_run maxDepth ctx currentDepth w) as Hr.
  cbn zeta in Hr. rewrite E in Hr. unfold FetchRun in Hr.
  fold session in Hr.
  destruct (LoopRun_path_free Inv _ _ _ _ _ _ _ _ _ _ Hkeep Hrep Hr [])
    with (vs' := vs) (w' := w') as (ts & Hf & Ev & Hq & Hp); auto.
  - intros k [].
  - intros k [].
  - apply Forall_forall. intros k _ [].
  - exists ts. repeat split; auto.
    now apply Forest_roots in Hf.
Qed.

End Properties.

(** * Runs on explicit inputs *)

Module Runs.
Import SpecHost.

(** The scenario of the specification: one request for 100, the node of
    100, a recursive call for [[200]], the node of 200; the store then
    reports the references 100 and 200. *)
Example array_scenario :
  exists w',
    defaultFetchVariablesStrategy arrayCtx 10 0 arrayWorld
      = Fulfilled [arrayNode; mkEntity (mkArgs 200) []] w'
    /\ requested (trace w') = [100; 200]
    /\ recursions (trace w')
       = [arrayChildCtx;
          mkCtx "s1"%string "main"%string []
                (Some (mkEntity (mkArgs 200) [])) None None]
    /\ storeReferences (sessionOf (store w') "s1"%string) = [100; 200].
Proof.
  eexists. split; [vm_compute; reflexivity|]. vm_compute. auto.
Qed.

(** Handle 3 is a child of both roots.  The array [refsFetched] of the
    top-level invocation was read before 3 was resolved under root 1, so 3
    is still selected under root 2 and requested again. *)
Example shared_child_scenario :
  requested (performed sharedWorld
               (defaultFetchVariablesStrategy sharedCtx 10 0 sharedWorld))
  = [1; 3; 2; 3].
Proof.
  vm_compute. reflexivity.
Qed.

(** C1, counterexample: with [refsToFetch = [5; 5]] handle 5 is requested
    twice, the second time after it was resolved in the same call; and with
    two roots that share the child 3, handle 3 is requested under the second
    root after it was resolved under the first. *)
Lemma resolved_handles_requested_again :
  ~ NoDup (requested
             (performed twiceWorld
                (defaultFetchVariablesStrategy twiceCtx 10 0 twiceWorld)))
  /\ ~ NoDup (requested
                (performed sharedWorld
                   (defaultFetchVariablesStrategy sharedCtx 10 0
                                                  sharedWorld))).
Proof.
  split.
  - vm_compute. intros Hnd. inversion Hnd as [|x l Hnotin Hnd']; subst.
    apply Hnotin. left. reflexivity.
  - vm_compute. intros Hnd. inversion Hnd as [|x l Hnotin Hnd']; subst.
    inversion Hnd' as [|y l' Hnotin' Hnd'']; subst.
    apply Hnotin'. right. left. reflexivity.
Qed.

(** C1 as the code has it.  On the filter scenario, where the store
    already reports the handles 7 and 8, the recursive call made for 100 is
    passed 11 and 12: neither is reported by the store, is 100 or occurs
    earlier in [refsToFetch].  On [refsToFetch = [5; 5]] the call returns
    and has requested 5 twice. *)
Lemma selected_children_not_in_refsFetched_witness :
  (In (EvRecurse filterChildCtx 10 (0 + 1))
      (performed filterWorld
         (defaultFetchVariablesStrategy arrayCtx 10 0 filterWorld))
   /\ exists pre h post body,
       refsToFetch arrayCtx = pre ++ h :: post
       /\ h <> 0
       /\ variable filterChildCtx = Some (toVariablesEntity (mkArgs h) body)
       /\ forall r, In r (refsToFetch filterChildCtx) ->
          ~ In r (selectReferences
                    (variables (selectSessionState (store filterWorld)
                                                   (sessionId arrayCtx))))
          /\ r <> h /\ ~ In r pre)
  /\ (exists vs w',
        defaultFetchVariablesStrategy twiceCtx 10 0 twiceWorld
        = Fulfilled vs w'
        /\ (count_occ Z.eq_dec (refsToFetch twiceCtx) 5%Z
            <= count_occ Z.eq_dec
                         (requested
                            (performed twiceWorld
                               (defaultFetchVariablesStrategy
                                  twiceCtx 10 0 twiceWorld))) 5%Z)%nat).
Proof.
  split.
  - assert (Hin : In (EvRecurse filterChildCtx 10 (0 + 1))
                     (performed filterWorld
                        (defaultFetchVariablesStrategy arrayCtx 10 0
                                                       filterWorld))).
    { vm_compute. auto. }
    split; [exact Hin|].
    destruct (proj1 (selected_children_not_in_refsFetched
                       arrayCtx 10 0 filterWorld) filterChildCtx 10 Hin)
      as (pre & h & post & body & E & Hh & Hv & Hsel).
    exists pre, h, post, body.
    split; [exact E|]. split; [exact Hh|]. split; [exact Hv|].
    intros x Hx. destruct (Hsel x Hx) as (Hs & Hne & Hpre & _). auto.
  - pose proof (proj2 (selected_children_not_in_refsFetched
                         twiceCtx 10 0 twiceWorld)) as Hall.
    cbn zeta in Hall.
    destruct (defaultFetchVariablesStrategy twiceCtx 10 0 twiceWorld)
      as [vs w'|w'|] eqn:E; [|vm_compute in E; discriminate..].
    exists vs, w'. split; [reflexivity|].
    apply (Hall vs w' eq_refl 5). lia.
Defined.

(** C2 on the pair scenario: the result lists a forest with the roots 1
    and 2. *)
Lemma result_is_depth_first_witness :
  exists vs w',
    defaultFetchVariablesStrategy pairCtx 10 0 pairWorld = Fulfilled vs w'
    /\ exists ts,
        vs = flat_map preorder ts
        /\ map rootRef ts = [1; 2].
Proof.
  destruct (defaultFetchVariablesStrategy pairCtx 10 0 pairWorld)
    as [vs w'|w'|] eqn:E; [|vm_compute in E; discriminate..].
  exists vs, w'. split; [reflexivity|].
  destruct (result_is_depth_first pairCtx 10 0 pairWorld vs w' E)
    as (ts & _ & Ev & Hroots & _).
  exists ts. split; [exact Ev|exact Hroots].
Defined.

(** The pair of the specification: the node of 1, the node of 2, then the
    descendant of 2. *)
Example pair_scenario :
  exists w',
    defaultFetchVariablesStrategy pairCtx 10 0 pairWorld
    = Fulfilled [mkEntity (mkArgs 1) [var "n"%string "1"%string 0];
                 mkEntity (mkArgs 2) [var "arr"%string "[7]"%string 3];
                 mkEntity (mkArgs 3) []] w'.
Proof.
  eexists. vm_compute. reflexivity.
Qed.


(** The filters of the specification on one node: the known handle 7, the
    lazy child, the known identity and the negative handle are left out;
    with [force] the lazy child is taken too. *)
Example filter_scenario :
  requested (performed filterWorld
               (defaultFetchVariablesStrategy arrayCtx 10 0 filterWorld))
  = [100; 11; 12]
  /\ requested (performed filterWorld
                  (defaultFetchVariablesStrategy forcedCtx 10 0 filterWorld))
     = [100; 9; 11; 12].
Proof.
  split; vm_compute; reflexivity.
Qed.

(** C4 on the array scenario with [maxDepth = 0]: the request for 100 is
    answered, so the call is fulfilled; 100 is requested, its node is
    dispatched and returned, and 200 is not gone into. *)
Lemma depth_bound_stops_recursion_witness :
  0 <= 0
  /\ existsb isFailure
             (performed arrayWorld
                (defaultFetchVariablesStrategy arrayCtx 0 0 arrayWorld))
     = false
  /\ exists vs w',
      defaultFetchVariablesStrategy arrayCtx 0 0 arrayWorld = Fulfilled vs w'
      /\ requested
           (performed arrayWorld
              (defaultFetchVariablesStrategy arrayCtx 0 0 arrayWorld))
         = [100]
      /\ vs = published
                (performed arrayWorld
                   (defaultFetchVariablesStrategy arrayCtx 0 0 arrayWorld))
      /\ List.length vs = 1%nat
      /\ recursions
           (performed arrayWorld
              (defaultFetchVariablesStrategy arrayCtx 0 0 arrayWorld))
         = [].
Proof.
  assert (Hd : 0 <= 0) by lia.
  assert (Hnone : existsb isFailure
                          (performed arrayWorld
                             (defaultFetchVariablesStrategy arrayCtx 0 0
                                                            arrayWorld))
                  = false) by (vm_compute; reflexivity).
  split; [exact Hd|]. split; [exact Hnone|].
  destruct (depth_bound_stops_recursion arrayCtx 0 0 arrayWorld Hd)
    as (Hrec & _ & _ & Hful & _ & Hans & _).
  destruct (Hans Hnone) as (vs & w' & E).
  destruct (Hful vs w' E) as (Hreq & _ & Hpub & Hlen).
  exists vs, w'. repeat split; auto.
Defined.

(** With [maxDepth = 0] the node of 100 is the whole result although 100
    has the expandable child 200. *)
Example depth_zero_scenario :
  exists w',
    defaultFetchVariablesStrategy arrayCtx 0 0 arrayWorld
      = Fulfilled [arrayNode] w'
    /\ requested (trace w') = [100].
Proof.
  eexists. split; vm_compute; reflexivity.
Qed.

(** C5 on the failure scenario. *)
Lemma failed_request_aborts_call_witness :
  In (EvRequest "s1"%string (mkArgs 2) None)
     (performed failingWorld
        (defaultFetchVariablesStrategy failingCtx 10 0 failingWorld))
  /\ exists w',
      defaultFetchVariablesStrategy failingCtx 10 0 failingWorld = Rejected w'.
Proof.
  assert (Hin : In (EvRequest "s1"%string (mkArgs 2) None)
                   (performed failingWorld
                      (defaultFetchVariablesStrategy failingCtx 10 0
                                                     failingWorld))).
  { vm_compute. auto. }
  split; [exact Hin|].
  destruct (failed_request_aborts_call failingCtx 10 0 failingWorld
                                       "s1"%string (mkArgs 2) Hin)
    as (w' & pre & E & _).
  exists w'. exact E.
Defined.

(** The failure scenario of the specification: the call is rejected, the
    node of 1 is in the store, no node of 2 is. *)
Example failure_scenario :
  exists w',
    defaultFetchVariablesStrategy failingCtx 10 0 failingWorld = Rejected w'
    /\ store w' = [mkStored "s1"%string (IdNum 1) (mkEntity (mkArgs 1) [])].
Proof.
  eexists. split; vm_compute; reflexivity.
Qed.

(** C6 on [refsToFetch = [-3; 0; 4]]. *)
Lemma zero_handle_never_requested_witness :
  ~ In 0 (requested
            (performed mixedWorld
               (defaultFetchVariablesStrategy mixedCtx 10 0 mixedWorld))).
Proof.
  exact (proj1 (zero_handle_never_requested mixedCtx 10 0 mixedWorld)).
Defined.

(** C7 on the array scenario: the second effect is the dispatch of the node
    of 100. *)
Lemma node_published_before_children_witness :
  exists post',
    skipn 1 (performed arrayWorld
               (defaultFetchVariablesStrategy arrayCtx 10 0 arrayWorld))
    = EvDispatch "s1"%string [arrayNode] :: post'.
Proof.
  apply (proj1 (node_published_before_children arrayCtx 10 0 arrayWorld)
               [] "s1"%string (mkArgs 100)
               [var "x" "5" 0; var "arr" "[1,2]" 200]).
  vm_compute. reflexivity.
Defined.

(** C8.  The claim fails on the code for a fetch rooted at a scope: the
    incoming context has only [scope] set, as the docstrings of
    [FetchVariablesContextArg] ask, and the context the fetcher derives
    for the children of 100, [{ ...ctx, refsToFetch, variable }], has both
    [variable] and [scope] set. *)
Lemma scoped_child_has_variable_and_scope :
  parentExclusive scopedCtx
  /\ exists c,
      In c (recursions
              (performed arrayWorld
                 (defaultFetchVariablesStrategy scopedCtx 10 0 arrayWorld)))
      /\ ~ parentExclusive c.
Proof.
  split; [left; reflexivity|].
  exists (mkCtx (H := host) "s1"%string "main"%string [200]
                (Some arrayNode) (Some "Locals"%string) None).
  split; [vm_compute; auto|].
  intros [Hv|Hs]; discriminate.
Qed.

(** The derived contexts on the array scenario, where [scope] is unset,
    and on the scope-rooted fetch, where it is set. *)
Lemma derived_context_copies_ctx_witness :
  (scope arrayCtx = None /\ parentExclusive arrayChildCtx)
  /\ (scope scopedCtx <> None
      /\ forall c,
          In c (recursions
                  (performed arrayWorld
                     (defaultFetchVariablesStrategy scopedCtx 10 0
                                                    arrayWorld))) ->
          ~ parentExclusive c).
Proof.
  split.
  - assert (Hs : scope arrayCtx = None) by reflexivity.
    split; [exact Hs|].
    apply (proj1 (proj2 (proj2 (derived_context_copies_ctx
                                  arrayCtx 10 0 arrayWorld))) Hs).
    vm_compute. auto.
  - assert (Hs : scope scopedCtx <> None) by discriminate.
    split; [exact Hs|].
    exact (proj2 (proj2 (proj2 (derived_context_copies_ctx
                                  scopedCtx 10 0 arrayWorld))) Hs).
Defined.

(** C9 on a context without handles. *)
Lemma empty_refsToFetch_is_noop_witness :
  refsToFetch emptyCtx = []
  /\ defaultFetchVariablesStrategy emptyCtx 10 0 arrayWorld
     = Fulfilled [] arrayWorld.
Proof.
  assert (He : refsToFetch emptyCtx = []) by reflexivity.
  split; [exact He|].
  exact (proj1 (empty_refsToFetch_is_noop emptyCtx 10 0 arrayWorld He)).
Defined.

(** C10 on [refsToFetch = [-3; 0; 4]]. *)
Lemma nonzero_caller_handles_are_fetched_witness :
  exists vs w',
    defaultFetchVariablesStrategy mixedCtx 10 0 mixedWorld = Fulfilled vs w'
    /\ (exists body, In (toVariablesEntity (mkArgs (-3)) body) vs)
    /\ (exists body, In (toVariablesEntity (mkArgs 4) body) vs).
Proof.
  destruct (defaultFetchVariablesStrategy mixedCtx 10 0 mixedWorld)
    as [vs w'|w'|] eqn:E; [|vm_compute in E; discriminate..].
  exists vs, w'. split; [reflexivity|].
  pose proof (proj1 (nonzero_caller_handles_are_fetched
                       mixedCtx 10 0 mixedWorld vs w' E)) as Hall.
  split.
  - destruct (Hall (-3)) as (body & _ & _ & Hin);
      [cbn; auto|lia|]. eauto.
  - destruct (Hall 4) as (body & _ & _ & Hin);
      [cbn; auto|lia|]. eauto.
Defined.

(** The negative handle is requested, the zero one is not. *)
Example mixed_scenario :
  requested (performed mixedWorld
               (defaultFetchVariablesStrategy mixedCtx 10 0 mixedWorld))
  = [-3; 4].
Proof.
  vm_compute. reflexivity.
Qed.

(** ** The store of the concrete host *)

Lemma references_app st l sid :
  storeReferences (sessionOf (st ++ l) sid)
  = storeReferences (sessionOf st sid) ++ storeReferences (sessionOf l sid).
Proof.
  unfold storeReferences, sessionOf. now rewrite filter_app, map_app.
Qed.

Lemma storeAddOne_keeps sid' st e sid r :
  In r (storeReferences (sessionOf st sid)) ->
  In r (storeReferences (sessionOf (storeAddOne sid' st e) sid)).
Proof.
  intros Hin. unfold storeAddOne.
  destruct (existsb _ st); [exact Hin|].
  rewrite references_app. apply in_or_app. now left.
Qed.

Lemma spec_store_keeps : storeKeepsReferences (H := host).
Proof.
  intros st sid sid' vs. revert st.
  unfold sessionReferences. cbn. unfold storeAdd.
  induction vs as [|e vs IH]; intros st r Hin; [exact Hin|].
  cbn. apply IH. now apply storeAddOne_keeps.
Qed.

Lemma storeAddOne_wellKeyed sid st e :
  wellKeyed st -> wellKeyed (storeAddOne sid st e).
Proof.
  intros Hwk. unfold storeAddOne.
  destruct (existsb _ st); [exact Hwk|].
  intros x n Hin Hid. apply in_app_or in Hin. destruct Hin as [Hin|[<-|[]]].
  - now apply Hwk.
  - cbn in *. now inversion Hid.
Qed.

Lemma spec_store_reports : storeReportsDispatched (H := host) wellKeyed.
Proof.
  split.
  - intros st sid vs. revert st. cbn. unfold storeAdd.
    induction vs as [|e vs IH]; intros st Hwk; [exact Hwk|].
    cbn. apply IH. now apply storeAddOne_wellKeyed.
  - intros st sid a body Hwk.
    unfold sessionReferences. cbn. unfold storeAddOne. cbn.
    destruct (existsb _ st) eqn:Ex.
    + apply existsb_exists in Ex. destruct Ex as (x & Hin & Hx).
      apply andb_true_iff in Hx. destruct Hx as [Hs Hid].
      unfold storeReferences, sessionOf. apply in_map_iff.
      exists x. split.
      * apply Hwk; [exact Hin|].
        destruct (storedId x) as [n|t]; cbn in Hid; [|discriminate].
        apply Z.eqb_eq in Hid. now subst.
      * apply filter_In. now split.
    + rewrite filter_app, map_app. apply in_or_app. right.
      cbn. rewrite String.eqb_refl. cbn. now left.
Qed.

(** ** The further properties on the inputs *)

(** X1 on the array scenario: the one level of recursion is at depth 1. *)
Lemma recursion_depth_is_bounded_witness :
  In (EvRecurse arrayChildCtx 10 1)
     (performed arrayWorld
        (defaultFetchVariablesStrategy arrayCtx 10 0 arrayWorld))
  /\ 10 = 10 /\ 0 < 1 <= 10.
Proof.
  assert (Hin : In (EvRecurse arrayChildCtx 10 1)
                   (performed arrayWorld
                      (defaultFetchVariablesStrategy arrayCtx 10 0
                                                     arrayWorld))).
  { vm_compute. auto. }
  split; [exact Hin|].
  exact (recursion_depth_is_bounded arrayCtx 10 0 arrayWorld
                                    arrayChildCtx 10 1 Hin).
Defined.

(** X5 on the array scenario with zeros around its handle. *)
Lemma zero_entries_are_inert_witness :
  filter nonZero paddedRefs = filter nonZero (refsToFetch arrayCtx)
  /\ defaultFetchVariablesStrategy (withRefs arrayCtx paddedRefs)
                                   10 0 arrayWorld
     = defaultFetchVariablesStrategy arrayCtx 10 0 arrayWorld.
Proof.
  assert (Hsame : filter nonZero paddedRefs
                  = filter nonZero (refsToFetch arrayCtx)) by reflexivity.
  split; [exact Hsame|].
  exact (zero_entries_are_inert arrayCtx paddedRefs 10 0 arrayWorld Hsame).
Defined.

(** X6 on the array scenario: 200 is the handle of a child of the node
    of 100. *)
Lemma requested_handles_have_a_source_witness :
  In 200 (requested
            (performed arrayWorld
               (defaultFetchVariablesStrategy arrayCtx 10 0 arrayWorld)))
  /\ (In 200 (refsToFetch arrayCtx)
      \/ (0 < 200
          /\ exists node dv,
              In node
                 (resolved
                    (performed arrayWorld
                       (defaultFetchVariablesStrategy arrayCtx 10 0
                                                      arrayWorld)))
              /\ In dv (entityVariables node)
              /\ variablesReference dv = 200)).
Proof.
  assert (Hin : In 200 (requested
                          (performed arrayWorld
                             (defaultFetchVariablesStrategy
                                arrayCtx 10 0 arrayWorld)))).
  { vm_compute. auto. }
  split; [exact Hin|].
  exact (requested_handles_have_a_source arrayCtx 10 0 arrayWorld 200 Hin).
Defined.

(** X7 on the children of the filter scenario, against numeric ids. *)
Lemma numeric_ids_exclude_nothing_witness :
  forallb isNumericId [IdNum 7; IdNum 10] = true
  /\ childRefsToFetch arrayCtx [100] [IdNum 7; IdNum 10]
                      (mkEntity (mkArgs 100) filterChildren)
     = childRefsToFetch arrayCtx [100] []
                        (mkEntity (mkArgs 100) filterChildren).
Proof.
  assert (Hnum : forallb isNumericId [IdNum 7; IdNum 10] = true)
    by reflexivity.
  split; [exact Hnum|].
  exact (numeric_ids_exclude_nothing
           arrayCtx [100] [IdNum 7; IdNum 10]
           (mkEntity (mkArgs 100) filterChildren) Hnum).
Defined.

(** X8 on the children of the filter scenario: what is selected without
    [force] against the known handle 7 is selected with [force] against
    nothing known. *)
Lemma filter_is_monotone_witness :
  incl (childRefsToFetch arrayCtx [7; 100] [IdStr "String@8"%string]
                         (mkEntity (mkArgs 100) filterChildren))
       (childRefsToFetch forcedCtx [100] []
                         (mkEntity (mkArgs 100) filterChildren)).
Proof.
  apply (filter_is_monotone
           arrayCtx forcedCtx [7; 100] [100]
           [IdStr "String@8"%string] []
           (mkEntity (mkArgs 100) filterChildren)).
  - intros _. reflexivity.
  - intros k [<-|[]]. right. now left.
  - intros k [].
Defined.

(** X9 on the handles 1 and 2 at [maxDepth = 0]. *)
Lemma batch_splits_at_depth_bound_witness :
  0 <= 0
  /\ defaultFetchVariablesStrategy (withRefs pairCtx ([1] ++ [2]))
                                   0 0 pairWorld
     = thenFetch
         (defaultFetchVariablesStrategy (withRefs pairCtx [1]) 0 0)
         (defaultFetchVariablesStrategy (withRefs pairCtx [2]) 0 0)
         pairWorld.
Proof.
  assert (Hd : 0 <= 0) by lia.
  split; [exact Hd|].
  exact (batch_splits_at_depth_bound pairCtx [1] [2] 0 0 pairWorld Hd).
Defined.

(** X10 on the filter scenario: handle 7 is known to the store and is not
    requested although a child of 100 refers to it. *)
Lemma known_handles_are_not_refetched_witness :
  In 7 (sessionReferences (store filterWorld) (sessionId arrayCtx))
  /\ ~ In 7 (refsToFetch arrayCtx)
  /\ ~ In 7 (requested
               (performed filterWorld
                  (defaultFetchVariablesStrategy arrayCtx 10 0
                                                 filterWorld))).
Proof.
  assert (Hknown : In 7 (sessionReferences (store filterWorld)
                                           (sessionId arrayCtx))).
  { vm_compute. auto. }
  assert (Hnot : ~ In 7 (refsToFetch arrayCtx)).
  { cbn. intros [E|[]]. discriminate. }
  split; [exact Hknown|]. split; [exact Hnot|].
  exact (known_handles_are_not_refetched arrayCtx 10 0 filterWorld 7
                                         spec_store_keeps Hknown Hnot).
Defined.

(** X11 on the cycle 1 -> 2 -> 1: the requests are the handles of a tree
    without a repeated handle on any path. *)
Lemma nested_calls_repeat_no_handle_witness :
  exists vs w',
    defaultFetchVariablesStrategy cycleCtx 10 0 cycleWorld = Fulfilled vs w'
    /\ exists ts,
        Forest 10 cycleCtx [] 0 [] [1] ts
        /\ vs = flat_map preorder ts
        /\ requested (performed cycleWorld (Fulfilled vs w'))
           = flat_map preorderRefs ts
        /\ map rootRef ts = [1]
        /\ Forall (PathFree []) ts.
Proof.
  destruct (defaultFetchVariablesStrategy cycleCtx 10 0 cycleWorld)
    as [vs w'|w'|] eqn:E; [|vm_compute in E; discriminate..].
  exists vs, w'. split; [reflexivity|].
  assert (Hwk : wellKeyed (store cycleWorld)) by (intros e n []).
  exact (nested_calls_repeat_no_handle
           wellKeyed cycleCtx 10 0 cycleWorld vs w'
           spec_store_keeps spec_store_reports Hwk E).
Defined.

(** With a store that reports nothing the cycle is followed down to the
    depth bound: the conclusion of X11 needs its hypotheses. *)
Example forgetful_store_follows_the_cycle :
  requested
    (performed forgetfulCycleWorld
       (@defaultFetchVariablesStrategy forgetfulHost forgetfulCycleCtx 3 0
                                       forgetfulCycleWorld))
  = [1; 2; 1; 2].
Proof.
  vm_compute. reflexivity.
Qed.

(** The cycle is followed once: 1, then 2, and 1 is not requested again. *)
Example cycle_scenario :
  requested (performed cycleWorld
               (defaultFetchVariablesStrategy cycleCtx 10 0 cycleWorld))
  = [1; 2].
Proof.
  vm_compute. reflexivity.
Qed.

End Runs.
